(** * Exercise 2.1: named entity recognition as sequence labelling

    A shallow embedding of the notebook [Exercise 2.1.ipynb]: the per-word
    model [SimpleSequenceModel], the hyperparameter container
    [SeqLabelerParameters] and the two methods of [SequenceLabeler],
    [train] and [predict].

    The notebook imports its preprocessing, batching and scoring helpers from
    a module [ner_util] whose text is not part of the repository, and it calls
    into PyTorch.  Helpers of [ner_util] are modelled from the specification
    (each such definition says so); PyTorch operations follow the library's
    documented behaviour, with the arithmetic of scores kept abstract. *)

From Stdlib Require Import Ascii String QArith.
From stdpp Require Import base decidable option list gmap strings fin_maps.

Local Open Scope string_scope.
Local Open Scope list_scope.
Local Open Scope nat_scope.

(** ** Python exceptions and fallible computations *)

Module Py.

Inductive exn : Type :=
| IndexError
| KeyError
| ValueError
| NameError
| RuntimeError
| ZeroDivisionError.

Inductive result (A : Type) : Type :=
| Ok (a : A)
| Raise (e : exn).

Arguments Ok {A} a.
Arguments Raise {A} e.

Definition bind {A B : Type} (r : result A) (k : A -> result B) : result B :=
  match r with
  | Ok a => k a
  | Raise e => Raise e
  end.

(** [l[i]] on a Python list. *)
Definition getitem {A : Type} (l : list A) (i : nat) : result A :=
  match l !! i with
  | Some a => Ok a
  | None => Raise IndexError
  end.

(** A list comprehension (or a [for] loop building a list) whose body can
    raise: the first exception aborts the whole comprehension. *)
Fixpoint comprehension {A B : Type} (f : A -> result B) (l : list A)
  : result (list B) :=
  match l with
  | [] => Ok []
  | a :: l' =>
      bind (f a) (fun b => bind (comprehension f l') (fun bs => Ok (b :: bs)))
  end.

(** [x[i][j]] where it exists. *)
Definition at2 {A : Type} (x : list (list A)) (i j : nat) : option A :=
  match x !! i with
  | Some row => row !! j
  | None => None
  end.

(** A [for] loop threading an accumulator, body can raise. *)
Fixpoint for_each {A S : Type} (body : S -> A -> result S) (s : S) (l : list A)
  : result S :=
  match l with
  | [] => Ok s
  | a :: l' => bind (body s a) (fun s' => for_each body s' l')
  end.

End Py.

Import Py.

#[global] Instance result_ret : MRet result := @Ok.
#[global] Instance result_bind : MBind result :=
  fun A B k r => Py.bind r k.
#[global] Instance result_fmap : FMap result :=
  fun A B f r => Py.bind r (fun a => Ok (f a)).

(** ** BIO labels, chunks and chunk-level scoring ([ner_util]) *)

Module NerUtil.

(** A BIO label: outside, begin of a chunk of some entity type, inside. *)
Inductive tag : Type :=
| TagO
| TagB (ty : string)
| TagI (ty : string).

#[global] Instance tag_eq_dec : EqDecision tag.
Proof. solve_decision. Defined.

(** Label strings as they stand in the data files: ["B-PER"], ["I-PER"],
    ["O"].  Any string without a [B-] or [I-] prefix is outside. *)
Definition parse_tag (s : string) : tag :=
  match s with
  | String "B"%char (String "-"%char ty) => TagB ty
  | String "I"%char (String "-"%char ty) => TagI ty
  | _ => TagO
  end.

Definition show_tag (t : tag) : string :=
  match t with
  | TagO => "O"
  | TagB ty => String.append "B-" ty
  | TagI ty => String.append "I-" ty
  end.

(** A chunk: the half-open span [[start, end)] and the entity type. *)
Definition chunk : Type := nat * nat * string.

Definition chunk_type (c : chunk) : string := c.2.

(** The chunk that is open while scanning: its start and type. *)
Definition open_chunk : Type := option (nat * string).

Definition close (cur : open_chunk) (i : nat) : list chunk :=
  match cur with
  | Some (s, ty) => [(s, i, ty)]
  | None => []
  end.

(** Does an [I-ty] label continue the open chunk? *)
Definition continues (cur : open_chunk) (ty : string) : bool :=
  match cur with
  | Some (_, ty') => bool_decide (ty' = ty)
  | None => false
  end.

(** Modelled from the spec: the chunk extraction of [ner_util]'s evaluator
    (section 4.5).  A chunk begins at a [B-TYPE] label, or at an [I-TYPE]
    label whose predecessor is not a [B]/[I] of the same type; it ends
    immediately before the next position that does not continue it. *)
Fixpoint scan_chunks (i : nat) (cur : open_chunk) (tags : list tag)
  : list chunk :=
  match tags with
  | [] => close cur i
  | TagO :: rest => close cur i ++ scan_chunks (S i) None rest
  | TagB ty :: rest => close cur i ++ scan_chunks (S i) (Some (i, ty)) rest
  | TagI ty :: rest =>
      if continues cur ty then scan_chunks (S i) cur rest
      else close cur i ++ scan_chunks (S i) (Some (i, ty)) rest
  end.

Definition get_chunks (tags : list tag) : list chunk :=
  scan_chunks 0 None tags.

(** Modelled from the spec: re-serialization of chunks to per-token labels
    (section 8, first property).  The chunks are written left to right
    from position [i]: [O] up to the start of a chunk, [B-TYPE] at its
    start, [I-TYPE] inside, and [O] up to the sentence length [n] after the
    last chunk. *)
Fixpoint serialize_from (i : nat) (cs : list chunk) (n : nat) : list tag :=
  match cs with
  | [] => replicate (n - i) TagO
  | (s, e, ty) :: cs' =>
      replicate (s - i) TagO ++
      TagB ty :: replicate (e - s - 1) (TagI ty) ++ serialize_from e cs' n
  end.

Definition serialize (n : nat) (cs : list chunk) : list tag :=
  serialize_from 0 cs n.

(** A label sequence in which every [I-TYPE] continues a chunk of the same
    type (it is preceded by [B-TYPE] or [I-TYPE]). *)
Fixpoint well_formed_from (prev : option string) (tags : list tag) : bool :=
  match tags with
  | [] => true
  | TagO :: rest => well_formed_from None rest
  | TagB ty :: rest => well_formed_from (Some ty) rest
  | TagI ty :: rest =>
      bool_decide (prev = Some ty) && well_formed_from (Some ty) rest
  end.

Definition well_formed (tags : list tag) : bool := well_formed_from None tags.

(** *** Evaluation statistics

    [stats] is a [defaultdict(Counter)]: entity type (or ["total"]) to a
    counter with the keys ["tp"], ["fp"] and ["fn"].  A missing key reads
    as zero, a missing counter as the empty counter. *)

Abbreviation Counter := (gmap string nat).
Abbreviation Stats := (gmap string (gmap string nat)).

Definition counter_get (c : Counter) (key : string) : nat :=
  default 0 (c !! key).

Definition stats_get (st : Stats) (ty : string) : Counter :=
  default ∅ (st !! ty).

Definition count (st : Stats) (ty key : string) : nat :=
  counter_get (stats_get st ty) key.

(** [stats[ty][key] += 1] *)
Definition bump (ty key : string) (st : Stats) : Stats :=
  let c := stats_get st ty in
  <[ty := <[key := S (counter_get c key)]> c]> st.

(** One more chunk of type [ty] under [key], also in the running total. *)
Definition tally (key ty : string) (st : Stats) : Stats :=
  bump "total" key (bump ty key st).

(** Modelled from the spec: the chunk matching of [ner_util.evaluate_iob]
    for one sentence (section 4.5).  A predicted chunk is a true positive
    when the very same span and type is a gold chunk, a false positive
    otherwise; a gold chunk with no identical predicted chunk is a false
    negative. *)
Definition score_predicted (gold : list chunk) (st : Stats) (c : chunk) : Stats :=
  if bool_decide (c ∈ gold) then tally "tp" (chunk_type c) st
  else tally "fp" (chunk_type c) st.

Definition score_gold (pred : list chunk) (st : Stats) (c : chunk) : Stats :=
  if bool_decide (c ∈ pred) then st else tally "fn" (chunk_type c) st.

Definition evaluate_sentence (pred gold : list tag) (st : Stats) : Stats :=
  let pc := get_chunks pred in
  let gc := get_chunks gold in
  foldl (score_gold pc) (foldl (score_predicted gc) st pc) gc.

(** Modelled from the spec: [ner_util.prf], the reduction of a counter to
    precision, recall and F1 (section 4.5): [TP/(TP+FP)], [TP/(TP+FN)] and
    their harmonic mean, each 0 when its denominator is 0. *)
Definition truediv (a b : Q) : result Q :=
  if Qeq_bool b 0 then Raise ZeroDivisionError else Ok (a / b)%Q.

Definition ratio_or_zero (a b : Q) : result Q :=
  if Qeq_bool b 0 then Ok 0%Q else truediv a b.

Definition Q_of_nat (n : nat) : Q := inject_Z (Z.of_nat n).

Definition prf (c : Counter) : result (Q * Q * Q) :=
  let tp := Q_of_nat (counter_get c "tp") in
  let fp := Q_of_nat (counter_get c "fp") in
  let fn := Q_of_nat (counter_get c "fn") in
  p ← ratio_or_zero tp (tp + fp)%Q;
  r ← ratio_or_zero tp (tp + fn)%Q;
  f1 ← ratio_or_zero (2 * p * r)%Q (p + r)%Q;
  Ok (p, r, f1).

End NerUtil.

Import NerUtil.

(** ** Scores and the operations taken from PyTorch and the Python runtime

    Scores, losses and times are floating-point numbers in the notebook.
    Their arithmetic is kept abstract: every property below holds for any
    choice of the operations. *)

Class Scalar (T : Type) : Type := {
  Tzero : T;
  Tadd : T → T → T;
  Tsub : T → T → T;
  Tmul : T → T → T;
  Tltb : T → T → bool;
  (** division of a sum by a count, total as in IEEE arithmetic *)
  Tdiv_nat : T → nat → T;
}.

Module Torch.
Section torch.
Context {T : Type} `{Scalar T}.

(** [nn.Embedding]: a table with one row per id. *)
Record Embedding : Type := {
  embedding_dim : nat;
  emb_weight : list (list T);
  (** whether the optimizer may change the table (fine-tuning) *)
  emb_requires_grad : bool;
}.

(** Looking up a batch of ids; an id without a row raises. *)
Definition embedding (e : Embedding) (ids : list (list nat))
  : result (list (list (list T))) :=
  comprehension (comprehension (getitem (emb_weight e))) ids.

(** [nn.Linear]: [out_features] rows of weights and as many biases. *)
Record Linear : Type := {
  in_features : nat;
  out_features : nat;
  lin_weight : list (list T);
  lin_bias : list T;
}.

Definition dot (a b : list T) : T := foldl Tadd Tzero (zip_with Tmul a b).

Definition linear1 (l : Linear) (x : list T) : list T :=
  zip_with (λ row b, Tadd (dot row x) b) (lin_weight l) (lin_bias l).

(** The layer applied at every position of a (sentences, words, dim)
    tensor. *)
Definition linear (l : Linear) (x : list (list (list T))) : list (list (list T)) :=
  (λ sentence : list (list T), linear1 l <$> sentence) <$> x.

(** Index of the largest score, the first one among equals. *)
Fixpoint argmax_from (best_i : nat) (best : T) (i : nat) (l : list T) : nat :=
  match l with
  | [] => best_i
  | x :: l' =>
      if Tltb best x then argmax_from i x (S i) l'
      else argmax_from best_i best (S i) l'
  end.

Definition argmax1 (l : list T) : result nat :=
  match l with
  | [] => Raise IndexError
  | x :: l' => Ok (argmax_from 0 x 1 l')
  end.

(** [scores.argmax(dim=2)] *)
Definition argmax_dim2 (scores : list (list (list T))) : result (list (list nat)) :=
  comprehension (comprehension argmax1) scores.

(** A list cut into pieces of [size] elements, the last piece possibly
    shorter: the batches of a sampler, the rows of a reshaped tensor. *)
Fixpoint batched_fuel {A : Type} (fuel size : nat) (l : list A) : list (list A) :=
  match fuel with
  | 0 => []
  | S fuel' =>
      match l with
      | [] => []
      | _ :: _ => take size l :: batched_fuel fuel' size (drop size l)
      end
  end.

Definition batched {A : Type} (size : nat) (l : list A) : list (list A) :=
  batched_fuel (length l) size l.

(** [tensor.view(-1)] of a (sentences, words) tensor: the entries in
    row-major order. *)
Definition view_flat {A : Type} (x : list (list A)) : list A := concat x.

(** [tensor.view(-1, n)] of a 3-dimensional tensor: the entries in
    row-major order, regrouped [n] at a time; it raises when they do not
    fill whole rows. *)
Definition view_2d (n : nat) (x : list (list (list T))) : result (list (list T)) :=
  let flat := concat (concat x) in
  if decide (n ≠ 0 ∧ length flat `mod` n = 0) then Ok (batched n flat)
  else Raise RuntimeError.

(** [torch.nn.CrossEntropyLoss(ignore_index=...)] with the default mean
    reduction: the per-position losses of the targets other than
    [ignore_index] are summed and divided by the number of such targets.
    [nll] is the per-position loss (negative log-softmax of the target's
    score).  A target that is neither ignored nor a class raises. *)
Record CrossEntropyLoss : Type := { ignore_index : nat }.

Definition loss_term (nll : list T → nat → T) (ignore : nat)
    (acc : T * nat) (xy : list T * nat) : result (T * nat) :=
  let '(sum, cnt) := acc in
  let '(row, y) := xy in
  if decide (y = ignore) then Ok (sum, cnt)
  else if decide (y < length row) then Ok (Tadd sum (nll row y), S cnt)
  else Raise IndexError.

Definition cross_entropy (nll : list T → nat → T) (lf : CrossEntropyLoss)
    (input : list (list T)) (target : list nat) : result T :=
  if decide (length input = length target) then
    '(sum, cnt) ← for_each (loss_term nll (ignore_index lf)) (Tzero, 0) (zip input target);
    Ok (Tdiv_nat sum cnt)
  else Raise ValueError.

End torch.
Arguments Embedding T : clear implicits.
Arguments Linear T : clear implicits.
End Torch.

Import Torch.

(** The parameter tensors of the model: embedding table, weights and
    biases of the output unit. *)
Definition Parameters (T : Type) : Type := list (list T) * list (list T) * list T.

(** What the notebook takes from PyTorch and Python without the notebook
    (or the specification) fixing it: the per-position loss, the random
    generators, parameter initialization, automatic differentiation and the
    optimizer. *)
Class Backend (T : Type) : Type := {
  #[global] backend_scalar :: Scalar T;
  nll : list T → nat → T;
  (** torch's default generator and Python's [random] generator *)
  Rng : Type;
  PyRng : Type;
  manual_seed : Z → Rng;
  random_seed_py : Z → PyRng;
  randperm : nat → Rng → list nat * Rng;
  random_random : PyRng → T * PyRng;
  (** [nn.Linear(in_features, out_features)], randomly initialized *)
  nn_Linear : nat → nat → Rng → Linear T * Rng;
  (** [torch.optim.Adam]: its state, one update from gradients *)
  Adam : Type;
  (** created from the parameters, whether the embedding table is trained,
      the learning rate and the weight decay *)
  Adam_init : Parameters T → bool → T → T → Adam;
  Adam_step : Adam → Parameters T → Parameters T → Adam * Parameters T;
  (** gradient of a loss, as a function of the parameters, at a point *)
  autograd : (Parameters T → result T) → Parameters T → Parameters T;
}.

(** ** The per-word model (notebook, [SimpleSequenceModel]) *)

Section model.
Context {T : Type} `{Backend T}.

Record SimpleSequenceModel : Type := {
  word_embedding : Embedding T;
  top_layer : Linear T;
  (** [nn.Module.training], switched by [train()] and [eval()] *)
  training : bool;
}.

(** [__init__]: keeps the given embedding layer, and creates the output
    unit from the embedding width to [n_labels]. *)
Definition SimpleSequenceModel_init (word_emb_layer : Embedding T) (n_labels : nat)
    (g : Rng) : SimpleSequenceModel * Rng :=
  let word_emb_dim := embedding_dim word_emb_layer in
  let '(top, g') := nn_Linear word_emb_dim n_labels g in
  ({| word_embedding := word_emb_layer; top_layer := top; training := true |}, g').

Definition forward (m : SimpleSequenceModel) (words : list (list nat))
  : result (list (list (list T))) :=
  word_repr ← embedding (word_embedding m) words;
  Ok (linear (top_layer m) word_repr).

(** The scores the model gives to a word id, wherever the word stands. *)
Definition word_scores (m : SimpleSequenceModel) (w : nat) : option (list T) :=
  linear1 (top_layer m) <$> emb_weight (word_embedding m) !! w.

Definition parameters (m : SimpleSequenceModel) : Parameters T :=
  (emb_weight (word_embedding m), lin_weight (top_layer m), lin_bias (top_layer m)).

Definition set_parameters (m : SimpleSequenceModel) (ps : Parameters T)
  : SimpleSequenceModel :=
  let '(e, w, b) := ps in
  {| word_embedding :=
       {| embedding_dim := embedding_dim (word_embedding m); emb_weight := e;
          emb_requires_grad := emb_requires_grad (word_embedding m) |};
     top_layer :=
       {| in_features := in_features (top_layer m);
          out_features := out_features (top_layer m);
          lin_weight := w; lin_bias := b |};
     training := training m |}.

(** [model.train()] and [model.eval()] *)
Definition set_training (mode : bool) (m : SimpleSequenceModel) : SimpleSequenceModel :=
  {| word_embedding := word_embedding m; top_layer := top_layer m; training := mode |}.

End model.
Arguments SimpleSequenceModel T : clear implicits.

(** ** Vocabularies, datasets and batches ([ner_util]) *)

(** What the notebook reads of a [ner_util.Vocabulary]: the forward mapping
    used by [encode], the list [itos], the reserved ids and [len()]. *)
Record Vocabulary : Type := {
  (** a vocabulary of characters rather than of words or labels *)
  character : bool;
  stoi : gmap string nat;
  itos : list string;
  (** [get_unknown_idx()]; absent when built with [include_unknown=False] *)
  unknown_idx : option nat;
  (** [get_pad_idx()] *)
  pad_idx : nat;
  (** [__len__] *)
  voc_len : nat;
}.

(** Modelled from the spec: [Vocabulary.encode] (section 4.1) converts token
    sequences to id sequences, substitutes the unknown id for an unseen token
    when the vocabulary has one, and raises otherwise. *)
Definition encode_token (voc : Vocabulary) (tok : string) : result nat :=
  match stoi voc !! tok with
  | Some i => Ok i
  | None =>
      match unknown_idx voc with
      | Some u => Ok u
      | None => Raise KeyError
      end
  end.

Definition encode (voc : Vocabulary) (seqs : list (list string))
  : result (list (list nat)) :=
  comprehension (comprehension (encode_token voc)) seqs.

(** The characters of a word, each a one-character string as in Python. *)
Fixpoint characters (w : string) : list string :=
  match w with
  | EmptyString => []
  | String a w' => String a EmptyString :: characters w'
  end.

(** Modelled from the spec: [encode] of a character vocabulary encodes the
    characters of every word. *)
Definition encode_chars (voc : Vocabulary) (seqs : list (list string))
  : result (list (list (list nat))) :=
  comprehension
    (comprehension (λ w, comprehension (encode_token voc) (characters w))) seqs.

(** One example of a dataset, and a padded batch of examples. *)
Record Item : Type := {
  item_words : list nat;
  item_labels : list nat;
  item_chars : option (list (list nat));
}.

Record Batch : Type := {
  Xbatch_words : list (list nat);
  Ybatch : list (list nat);
  Xbatch_chars : option (list (list (list nat)));
}.

(** [ner_util.SequenceBatcher].  The notebook builds it from the device
    alone, so the ids it pads with and whether rows start with a pad slot
    are constants of [ner_util]; they are fields here. *)
Record SequenceBatcher : Type := {
  device : string;
  lead_slot : bool;
  word_pad : nat;
  label_pad : nat;
  char_pad : nat;
}.

Definition lead_width (b : SequenceBatcher) : nat :=
  if lead_slot b then 1 else 0.

Definition pad_to {A : Type} (pad : A) (lead width : nat) (l : list A) : list A :=
  replicate lead pad ++ l ++ replicate (width - length l) pad.

(** Modelled from the spec: the batcher (sections 3 and 4.2) produces one
    padded array per field, of the batch's longest sentence (plus the
    leading pad slot), right-padding shorter sentences with the pad id and
    keeping the order of the examples; the characters of every word are
    padded to the longest word of the batch. *)
Definition collate (b : SequenceBatcher) (items : list Item) : Batch :=
  let lead := lead_width b in
  let n_words := max_list (length ∘ item_words <$> items) in
  let n_labels := max_list (length ∘ item_labels <$> items) in
  {| Xbatch_words := (λ it, pad_to (word_pad b) lead n_words (item_words it)) <$> items;
     Ybatch := (λ it, pad_to (label_pad b) lead n_labels (item_labels it)) <$> items;
     Xbatch_chars :=
       chars ← mapM item_chars items;
       let n_chars := max_list ((λ sen, max_list (length <$> sen)) <$> chars) in
       Some ((λ sen : list (list nat),
                pad_to (replicate n_chars (char_pad b)) lead n_words
                  (pad_to (char_pad b) 0 n_chars <$> sen)) <$> chars) |}.

(** Modelled from the spec: [ner_util.evaluate_iob] (sections 3 and 4.5)
    scores every sentence of a batch, leaving out the padding positions:
    the positions whose gold label is the label vocabulary's pad id.  The
    remaining ids are decoded to label strings through [itos]. *)
Definition decode_tag (label_voc : Vocabulary) (id : nat) : result tag :=
  s ← getitem (itos label_voc) id; Ok (parse_tag s).

Definition real_positions (label_voc : Vocabulary) (pred_row gold_row : list nat)
  : list (nat * nat) :=
  filter (λ pg, pg.2 ≠ pad_idx label_voc) (zip pred_row gold_row).

Definition evaluate_row (label_voc : Vocabulary) (st : Stats)
    (rows : list nat * list nat) : result Stats :=
  let real := real_positions label_voc rows.1 rows.2 in
  pred ← comprehension (decode_tag label_voc) (real.*1);
  gold ← comprehension (decode_tag label_voc) (real.*2);
  Ok (evaluate_sentence pred gold st).

Definition evaluate_iob (words predicted gold : list (list nat))
    (label_voc : Vocabulary) (st : Stats) : result Stats :=
  for_each (evaluate_row label_voc) st (zip predicted gold).

(** The parts of [ner_util] that neither the notebook nor the specification
    fixes: reading a data file, creating and building a vocabulary, creating
    its embedding layer, and the batcher's constants. *)
Class NerUtilOps (T : Type) `{Backend T} : Type := {
  (** a loaded gensim embedding model *)
  Gensim : Type;
  read_data : string → result (list (list string) * list (list string));
  (** [Vocabulary(include_unknown, character, gensim_model)] *)
  Vocabulary_new : bool → bool → option Gensim → Vocabulary;
  Vocabulary_build : Vocabulary → list (list string) → Vocabulary;
  (** [make_embedding_layer(finetune, emb_dim)] *)
  make_embedding_layer : Vocabulary → bool → nat → Rng → Embedding T * Rng;
  SequenceBatcher_new : string → SequenceBatcher;
}.

(** ** The complete system (notebook, [SeqLabelerParameters] and
    [SequenceLabeler]) *)

Section labeler.
Context {T : Type} `{NerUtilOps T}.

Record SeqLabelerParameters : Type := {
  p_device : string;
  random_seed : Z;
  train_file : string;
  valid_file : string;
  use_characters : bool;
  word_emb_dim : nat;
  pretrained_word_emb : option Gensim;
  finetune_word_emb : bool;
  n_epochs : nat;
  batch_size : nat;
  learning_rate : T;
  weight_decay : T;
  word_dropout_prob : T;
}.

(** [ner_util.SequenceDataset]: the encoded sentences, and the token
    dropout applied when an example is fetched. *)
Record SequenceDataset : Type := {
  ds_words : list (list nat);
  ds_labels : list (list nat);
  ds_chars : option (list (list (list nat)));
  ds_word_dropout_prob : option T;
  ds_word_dropout_id : option nat;
}.

(** Modelled from the spec: token dropout (glossary) replaces a word id
    by the unknown id at random; one draw of Python's [random] generator
    per token, the generator [train] seeds beside torch's. *)
Fixpoint word_dropout (prob : T) (unk : nat) (ws : list nat) (g : PyRng)
  : list nat * PyRng :=
  match ws with
  | [] => ([], g)
  | w :: ws' =>
      let '(u, g1) := random_random g in
      let '(rest, g2) := word_dropout prob unk ws' g1 in
      ((if Tltb u prob then unk else w) :: rest, g2)
  end.

(** [dataset[idx]] *)
Definition dataset_getitem (ds : SequenceDataset) (idx : nat) (g : PyRng)
  : result (Item * PyRng) :=
  ws ← getitem (ds_words ds) idx;
  ys ← getitem (ds_labels ds) idx;
  cs ← match ds_chars ds with
       | Some chars => c ← getitem chars idx; Ok (Some c)
       | None => Ok None
       end;
  match ds_word_dropout_prob ds, ds_word_dropout_id ds with
  | Some prob, Some unk =>
      let '(ws', g') := word_dropout prob unk ws g in
      Ok ({| item_words := ws'; item_labels := ys; item_chars := cs |}, g')
  | _, _ => Ok ({| item_words := ws; item_labels := ys; item_chars := cs |}, g)
  end.

(** [torch.utils.data.DataLoader(dataset, batch_size, shuffle, collate_fn)] *)
Record DataLoader : Type := {
  dl_dataset : SequenceDataset;
  dl_batch_size : nat;
  dl_shuffle : bool;
  dl_collate_fn : SequenceBatcher;
}.

Definition DataLoader_new (ds : SequenceDataset) (size : nat) (shuffle : bool)
    (collate_fn : SequenceBatcher) : result DataLoader :=
  if decide (size = 0) then Raise ValueError
  else Ok {| dl_dataset := ds; dl_batch_size := size;
             dl_shuffle := shuffle; dl_collate_fn := collate_fn |}.

(** [len(loader)]: the number of batches. *)
Definition DataLoader_len (dl : DataLoader) : nat :=
  (length (ds_words (dl_dataset dl)) + dl_batch_size dl - 1) / dl_batch_size dl.

(** *** The world outside the labeler

    The two random generators, the clock read by [time.time()], and the
    trace of what a run does that can be observed: optimizer updates,
    calls of the evaluator, and printed or plotted reports. *)
Inductive event : Type :=
| OptimizerStep (loss : T)
| EvaluateBatch (predicted : list (list nat))
| PrintEpoch (epoch : nat) (train_loss : T) (val_f1 : Q) (seconds : T)
| PrintFinal (overall : Q * Q * Q) (per_type : list (string * (Q * Q * Q)))
| Plot (train_loss : list T) (val_f1 : list Q).

Record World : Type := {
  torch_rng : Rng;
  py_rng : PyRng;
  ticks : list T;
  trace : list event;
}.

(** A computation that reads and changes the world and can raise. *)
Definition M (A : Type) : Type := World → result (A * World).

Definition ret {A : Type} (a : A) : M A := λ w, Ok (a, w).

Definition bindM {A B : Type} (m : M A) (k : A → M B) : M B :=
  λ w, match m w with
       | Ok (a, w') => k a w'
       | Raise e => Raise e
       end.

Definition lift {A : Type} (r : result A) : M A :=
  λ w, match r with
       | Ok a => Ok (a, w)
       | Raise e => Raise e
       end.

Definition emit (e : event) : M unit :=
  λ w, Ok (tt, {| torch_rng := torch_rng w; py_rng := py_rng w;
                  ticks := ticks w; trace := trace w ++ [e] |}).

(** [time.time()] *)
Definition time_time : M T :=
  λ w, Ok (hd Tzero (ticks w),
           {| torch_rng := torch_rng w; py_rng := py_rng w;
              ticks := tl (ticks w); trace := trace w |}).

Definition with_torch_rng {A : Type} (f : Rng → A * Rng) : M A :=
  λ w, let '(a, g) := f (torch_rng w) in
       Ok (a, {| torch_rng := g; py_rng := py_rng w;
                 ticks := ticks w; trace := trace w |}).

Definition with_py_rng {A : Type} (f : PyRng → result (A * PyRng)) : M A :=
  λ w, match f (py_rng w) with
       | Ok (a, g) =>
           Ok (a, {| torch_rng := torch_rng w; py_rng := g;
                     ticks := ticks w; trace := trace w |})
       | Raise e => Raise e
       end.

(** [torch.manual_seed(seed)] and [random.seed(seed)] *)
Definition torch_manual_seed (seed : Z) : M unit :=
  λ w, Ok (tt, {| torch_rng := manual_seed seed; py_rng := py_rng w;
                  ticks := ticks w; trace := trace w |}).

Definition random_seed_call (seed : Z) : M unit :=
  λ w, Ok (tt, {| torch_rng := torch_rng w; py_rng := random_seed_py seed;
                  ticks := ticks w; trace := trace w |}).

(** A [for] loop with an accumulator, and a loop collecting results. *)
Fixpoint for_eachM {A S : Type} (body : S → A → M S) (s : S) (l : list A) : M S :=
  match l with
  | [] => ret s
  | a :: l' => bindM (body s a) (λ s', for_eachM body s' l')
  end.

Fixpoint collectM {A B : Type} (f : A → M B) (l : list A) : M (list B) :=
  match l with
  | [] => ret []
  | a :: l' => bindM (f a) (λ b, bindM (collectM f l') (λ bs, ret (b :: bs)))
  end.

#[global] Instance M_ret : MRet M := @ret.
#[global] Instance M_bind : MBind M := λ A B k m, bindM m k.

(** Iterating a loader: the indices of the dataset, shuffled by torch's
    generator when asked for, are cut into batches; the examples of a
    batch are fetched in order and collated.  (The loader of the notebook
    fetches a batch when the loop asks for it; the loop bodies draw no
    random numbers, so fetching all batches first gives the same
    batches.) *)
Definition fetch_batch (dl : DataLoader) (idxs : list nat) : M Batch :=
  items ← collectM (λ idx, with_py_rng (dataset_getitem (dl_dataset dl) idx)) idxs;
  ret (collate (dl_collate_fn dl) items).

Definition DataLoader_iter (dl : DataLoader) : M (list Batch) :=
  let n := length (ds_words (dl_dataset dl)) in
  idxs ← (if dl_shuffle dl then with_torch_rng (randperm n) else ret (seq 0 n));
  collectM (fetch_batch dl) (batched (dl_batch_size dl) idxs).

Record SequenceLabeler : Type := {
  params : SeqLabelerParameters;
  word_voc : Vocabulary;
  label_voc : Vocabulary;
  char_voc : Vocabulary;
  batcher : SequenceBatcher;
  model : SimpleSequenceModel T;
  stats : Stats;
}.

(** *** [SequenceLabeler.train] *)

(** [loss_func(scores.view(-1, len(self.label_voc)), Ybatch.view(-1))]
    for the scores of the model on the batch. *)
Definition batch_loss (loss_func : CrossEntropyLoss) (n_labels : nat) (b : Batch)
    (m : SimpleSequenceModel T) : result T :=
  scores ← forward m (Xbatch_words b);
  input ← view_2d n_labels scores;
  cross_entropy nll loss_func input (view_flat (Ybatch b)).

(** The body of the training loop: scores, loss, gradients of the loss,
    one update of the optimizer. *)
Definition train_batch (loss_func : CrossEntropyLoss) (n_labels : nat)
    (st : SimpleSequenceModel T * Adam * T) (b : Batch)
  : M (SimpleSequenceModel T * Adam * T) :=
  let '(m, optimizer, loss_sum) := st in
  loss ← lift (batch_loss loss_func n_labels b m);
  let grads :=
    autograd (λ ps, batch_loss loss_func n_labels b (set_parameters m ps))
             (parameters m) in
  let '(optimizer', ps) := Adam_step optimizer (parameters m) grads in
  _ ← emit (OptimizerStep loss);
  ret (set_parameters m ps, optimizer', Tadd loss_sum loss).

(** The body of the validation loop, under [torch.no_grad()]. *)
Definition validate_batch (label_voc : Vocabulary)
    (st : SimpleSequenceModel T * Stats) (b : Batch)
  : M (SimpleSequenceModel T * Stats) :=
  let '(m, stats) := st in
  scores ← lift (forward m (Xbatch_words b));
  predicted ← lift (argmax_dim2 scores);
  _ ← emit (EvaluateBatch predicted);
  stats' ← lift (evaluate_iob (Xbatch_words b) predicted (Ybatch b) label_voc stats);
  ret (m, stats').

(** The validation phase of an epoch. *)
Definition validate (label_voc : Vocabulary) (val_loader : DataLoader)
    (m : SimpleSequenceModel T) : M (SimpleSequenceModel T * Stats) :=
  let stats : Stats := ∅ in
  let m := set_training false m in
  batches ← DataLoader_iter val_loader;
  for_eachM (validate_batch label_voc) (m, stats) batches.

(** [loss_sum / len(train_loader)] *)
Definition truediv_len (x : T) (n : nat) : result T :=
  if decide (n = 0) then Raise ZeroDivisionError else Ok (Tdiv_nat x n).

(** [stats['total']] on a [defaultdict]: a missing counter is created. *)
Definition stats_touch (st : Stats) (ty : string) : Stats :=
  <[ty := stats_get st ty]> st.

(** The local variables of [train] that live across epochs. *)
Record TrainState : Type := {
  ts_model : SimpleSequenceModel T;
  ts_optimizer : Adam;
  ts_train_loss : list T;
  ts_val_f1 : list Q;
  ts_stats : option Stats;
}.

Definition epoch (loss_func : CrossEntropyLoss) (label_voc : Vocabulary)
    (train_loader val_loader : DataLoader) (st : TrainState) (i : nat)
  : M TrainState :=
  t0 ← time_time;
  let loss_sum := Tzero in
  let m := set_training true (ts_model st) in
  batches ← DataLoader_iter train_loader;
  '(m, optimizer, loss_sum) ←
    for_eachM (train_batch loss_func (voc_len label_voc))
              (m, ts_optimizer st, loss_sum) batches;
  train_loss ← lift (truediv_len loss_sum (DataLoader_len train_loader));
  '(m, stats) ← validate label_voc val_loader m;
  '(_, _, val_f1) ← lift (prf (stats_get stats "total"));
  let stats := stats_touch stats "total" in
  t1 ← time_time;
  _ ← emit (PrintEpoch (i + 1) train_loss val_f1 (Tsub t1 t0));
  ret {| ts_model := m; ts_optimizer := optimizer;
         ts_train_loss := ts_train_loss st ++ [train_loss];
         ts_val_f1 := ts_val_f1 st ++ [val_f1];
         ts_stats := Some stats |}.

(** The report after the last epoch; [stats] is unbound when no epoch
    ran. *)
Definition final_report (st : TrainState) : M Stats :=
  stats ← lift (match ts_stats st with
                | Some stats => Ok stats
                | None => Raise NameError
                end);
  overall ← lift (prf (stats_get stats "total"));
  let stats := stats_touch stats "total" in
  per_type ← lift (comprehension
                     (λ lc : string * Counter, r ← prf lc.2; Ok (lc.1, r))
                     (filter (λ lc, lc.1 ≠ "total") (map_to_list stats)));
  _ ← emit (PrintFinal overall per_type);
  _ ← emit (Plot (ts_train_loss st) (ts_val_f1 st));
  ret stats.

(** What [train] has set up when the epochs start: the vocabularies, the
    batcher, the two loaders, the model, the optimizer and the loss. *)
Record Setup : Type := {
  su_word_voc : Vocabulary;
  su_label_voc : Vocabulary;
  su_char_voc : Vocabulary;
  su_batcher : SequenceBatcher;
  su_train_loader : DataLoader;
  su_val_loader : DataLoader;
  su_model : SimpleSequenceModel T;
  su_optimizer : Adam;
  su_loss_func : CrossEntropyLoss;
}.

(** [train], up to the epoch loop.  ([self.model.to(p.device)] moves the
    tensors and changes no value.) *)
Definition train_setup (p : SeqLabelerParameters) : M Setup :=
  _ ← torch_manual_seed (random_seed p);
  _ ← random_seed_call (random_seed p);
  '(Xtrain, Ytrain) ← lift (read_data (train_file p));
  '(Xval, Yval) ← lift (read_data (valid_file p));
  let word_voc := Vocabulary_new true false (pretrained_word_emb p) in
  let label_voc := Vocabulary_build (Vocabulary_new false false None) Ytrain in
  let word_voc :=
    match pretrained_word_emb p with
    | Some _ => word_voc
    | None => Vocabulary_build word_voc Xtrain
    end in
  let char_voc := Vocabulary_build (Vocabulary_new true true None) Xtrain in
  let batcher := SequenceBatcher_new (p_device p) in
  Xtrain_ids ← lift (encode word_voc Xtrain);
  Ytrain_ids ← lift (encode label_voc Ytrain);
  Ctrain_ids ← lift (if use_characters p then Some <$> encode_chars char_voc Xtrain
                     else Ok None);
  let train_dataset :=
    {| ds_words := Xtrain_ids; ds_labels := Ytrain_ids; ds_chars := Ctrain_ids;
       ds_word_dropout_prob := Some (word_dropout_prob p);
       ds_word_dropout_id := unknown_idx word_voc |} in
  train_loader ← lift (DataLoader_new train_dataset (batch_size p) true batcher);
  Xval_ids ← lift (encode word_voc Xval);
  Yval_ids ← lift (encode label_voc Yval);
  Cval_ids ← lift (if use_characters p then Some <$> encode_chars char_voc Xval
                   else Ok None);
  let val_dataset :=
    {| ds_words := Xval_ids; ds_labels := Yval_ids; ds_chars := Cval_ids;
       ds_word_dropout_prob := None; ds_word_dropout_id := None |} in
  val_loader ← lift (DataLoader_new val_dataset (batch_size p) false batcher);
  emb_layer ← with_torch_rng
    (make_embedding_layer word_voc (finetune_word_emb p) (word_emb_dim p));
  m ← with_torch_rng (SimpleSequenceModel_init emb_layer (voc_len label_voc));
  let optimizer :=
    Adam_init (parameters m) (emb_requires_grad (word_embedding m))
              (learning_rate p) (weight_decay p) in
  let loss_func := {| ignore_index := pad_idx label_voc |} in
  ret {| su_word_voc := word_voc; su_label_voc := label_voc; su_char_voc := char_voc;
         su_batcher := batcher; su_train_loader := train_loader;
         su_val_loader := val_loader; su_model := m; su_optimizer := optimizer;
         su_loss_func := loss_func |}.

(** [for i in range(p.n_epochs): ...] *)
Definition train_epochs (n : nat) (su : Setup) : M TrainState :=
  for_eachM (epoch (su_loss_func su) (su_label_voc su)
                   (su_train_loader su) (su_val_loader su))
    {| ts_model := su_model su; ts_optimizer := su_optimizer su;
       ts_train_loss := []; ts_val_f1 := []; ts_stats := None |}
    (seq 0 n).

Definition train (p : SeqLabelerParameters) : M SequenceLabeler :=
  su ← train_setup p;
  st ← train_epochs (n_epochs p) su;
  stats ← final_report st;
  ret {| params := p; word_voc := su_word_voc su; label_voc := su_label_voc su;
         char_voc := su_char_voc su; batcher := su_batcher su;
         model := ts_model st; stats := stats |}.

(** *** [SequenceLabeler.predict] *)

(** The inner loop: one row of predicted ids becomes the labels of the
    next sentence; the first predicted position is dropped and the rest
    is cut to the sentence's tokens. *)
Definition predict_sentence (label_voc : Vocabulary) (sentences : list (list string))
    (out : list (list string)) (pred_sen : list nat) : result (list (list string)) :=
  tokens ← getitem sentences (length out);
  labels ← comprehension (λ tp : string * nat, getitem (itos label_voc) tp.2)
                         (zip tokens (drop 1 pred_sen));
  Ok (out ++ [labels]).

Definition predict_batch (label_voc : Vocabulary) (sentences : list (list string))
    (st : SimpleSequenceModel T * list (list string)) (b : Batch)
  : M (SimpleSequenceModel T * list (list string)) :=
  let '(m, out) := st in
  scores ← lift (forward m (Xbatch_words b));
  predicted ← lift (argmax_dim2 scores);
  out' ← lift (for_each (predict_sentence label_voc sentences) out predicted);
  ret (m, out').

(** The dataset [predict] builds for given placeholder labels and
    character ids, and the loop over its batches. *)
Definition predict_on (self : SequenceLabeler) (sentences : list (list string))
    (Xwords Y : list (list nat)) (Xchars : list (list (list nat)))
  : M (list (list string) * SequenceLabeler) :=
  let dataset :=
    {| ds_words := Xwords; ds_labels := Y; ds_chars := Some Xchars;
       ds_word_dropout_prob := None; ds_word_dropout_id := None |} in
  loader ← lift (DataLoader_new dataset (batch_size (params self)) false (batcher self));
  let out : list (list string) := [] in
  let m := set_training false (model self) in
  batches ← DataLoader_iter loader;
  '(m, out) ← for_eachM (predict_batch (label_voc self) sentences) (m, out) batches;
  ret (out, {| params := params self; word_voc := word_voc self;
               label_voc := label_voc self; char_voc := char_voc self;
               batcher := batcher self; model := m; stats := stats self |}).

Definition predict (self : SequenceLabeler) (sentences : list (list string))
  : M (list (list string) * SequenceLabeler) :=
  Ydummy ← lift (comprehension
                   (λ sen : list string,
                      placeholder ← getitem (itos (label_voc self)) 0;
                      Ok (replicate (length sen) placeholder))
                   sentences);
  Xwords ← lift (encode (word_voc self) sentences);
  Y ← lift (encode (label_voc self) Ydummy);
  Xchars ← lift (encode_chars (char_voc self) sentences);
  predict_on self sentences Xwords Y Xchars.

End labeler.
Arguments SeqLabelerParameters T {_ _}.
Arguments SequenceDataset T : clear implicits.
Arguments DataLoader T : clear implicits.
Arguments event T : clear implicits.
Arguments World T {_}.
Arguments M T {_} A.
Arguments SequenceLabeler T {_ _}.
Arguments TrainState T {_}.
Arguments Setup T {_}.

(** ** A small concrete instance

    Integer scores, generators that count, an optimizer that moves every
    parameter by one, a vocabulary that numbers tokens in order of first
    occurrence after the pad and unknown entries, and two data files of a
    few sentences.  The instance runs: it is what the general statements
    are tried on. *)

Module Demo.

#[global] Instance scalar : Scalar Z := {|
  Tzero := 0%Z;
  Tadd := Z.add;
  Tsub := Z.sub;
  Tmul := Z.mul;
  Tltb := Z.ltb;
  Tdiv_nat := λ x n, (x / Z.of_nat n)%Z;
|}.

Definition bump_all (ps : Parameters Z) : Parameters Z :=
  let '(e, w, b) := ps in
  ((λ row : list Z, Z.succ <$> row) <$> e,
   (λ row : list Z, Z.succ <$> row) <$> w,
   Z.succ <$> b).

#[global] Instance backend : Backend Z := {|
  backend_scalar := scalar;
  nll := λ row y, (foldr Z.max 0 row - default 0 (row !! y))%Z;
  Rng := Z;
  PyRng := Z;
  manual_seed := λ seed, seed;
  random_seed_py := λ seed, seed;
  randperm := λ n g, (reverse (seq 0 n), Z.succ g);
  random_random := λ g, ((g `mod` 10)%Z, (7 * g + 1)%Z);
  nn_Linear := λ i o g,
    ({| in_features := i; out_features := o;
        lin_weight := (λ k, replicate i (g + Z.of_nat k)%Z) <$> seq 0 o;
        lin_bias := (λ k, Z.of_nat k) <$> seq 0 o |}, Z.succ g);
  Adam := nat;
  Adam_init := λ _ _ _ _, 0;
  Adam_step := λ steps ps grads, (S steps, bump_all ps);
  autograd := λ loss ps, ps;
|}.

Definition pad_token : string := "<pad>".
Definition unknown_token : string := "<unk>".

(** Tokens numbered in order of first occurrence, after the entries the
    vocabulary starts with. *)
Definition add_token (voc : Vocabulary) (tok : string) : Vocabulary :=
  match stoi voc !! tok with
  | Some _ => voc
  | None =>
      {| character := character voc;
         stoi := <[tok := length (itos voc)]> (stoi voc);
         itos := itos voc ++ [tok];
         unknown_idx := unknown_idx voc;
         pad_idx := pad_idx voc;
         voc_len := S (voc_len voc) |}
  end.

Definition new (include_unknown character : bool) : Vocabulary :=
  if include_unknown then
    {| character := character;
       stoi := {[ pad_token := 0 ]}; itos := [pad_token; unknown_token];
       unknown_idx := Some 1; pad_idx := 0; voc_len := 2 |}
  else
    {| character := character;
       stoi := {[ pad_token := 0 ]}; itos := [pad_token];
       unknown_idx := None; pad_idx := 0; voc_len := 1 |}.

Definition build (voc : Vocabulary) (seqs : list (list string)) : Vocabulary :=
  foldl add_token voc
    (if character voc then concat (characters <$> concat seqs) else concat seqs).

Definition train_sentences : list (list string) :=
  [ ["United"; "Nations"; "official"; "Ekeus"; "heads"; "for"; "Baghdad"; "."];
    ["Jane"; "lives"; "in"; "Baghdad"];
    ["Ekeus"; "."] ].

Definition train_labels : list (list string) :=
  [ ["B-ORG"; "I-ORG"; "O"; "B-PER"; "O"; "O"; "B-LOC"; "O"];
    ["B-PER"; "O"; "O"; "B-LOC"];
    ["B-PER"; "O"] ].

Definition valid_sentences : list (list string) :=
  [ ["Jane"; "heads"; "for"; "Lund"; "."];
    ["United"; "Nations"] ].

Definition valid_labels : list (list string) :=
  [ ["B-PER"; "O"; "O"; "B-LOC"; "O"];
    ["B-ORG"; "I-ORG"] ].

Definition read_file (file : string)
  : result (list (list string) * list (list string)) :=
  if decide (file = "train.txt") then Ok (train_sentences, train_labels)
  else if decide (file = "valid.txt") then Ok (valid_sentences, valid_labels)
  else Raise ValueError.

Definition embedding_layer (voc : Vocabulary) (finetune : bool) (dim : nat) (g : Z)
  : Embedding Z * Z :=
  ({| embedding_dim := dim;
      emb_weight := (λ k, replicate dim (g + Z.of_nat k)%Z) <$> seq 0 (voc_len voc);
      emb_requires_grad := finetune |}, Z.succ g).

Definition new_batcher (dev : string) : SequenceBatcher :=
  {| device := dev; lead_slot := true; word_pad := 0; label_pad := 0; char_pad := 0 |}.

#[global] Instance ner_util : NerUtilOps Z :=
  @Build_NerUtilOps Z backend Empty_set read_file
    (λ include_unknown character _, new include_unknown character)
    build embedding_layer new_batcher.

Definition demo_params : SeqLabelerParameters Z := {|
  p_device := "cpu";
  random_seed := 0;
  train_file := "train.txt";
  valid_file := "valid.txt";
  use_characters := false;
  word_emb_dim := 2;
  pretrained_word_emb := None;
  finetune_word_emb := true;
  n_epochs := 2;
  batch_size := 2;
  learning_rate := 5%Z;
  weight_decay := 1%Z;
  word_dropout_prob := 0%Z;
|}.

Definition world0 : World Z := {|
  torch_rng := 17%Z; py_rng := 23%Z; ticks := [100; 103; 107; 112]%Z; trace := [];
|}.

Definition demo_model : SimpleSequenceModel Z := {|
  word_embedding :=
    {| embedding_dim := 2;
       emb_weight := [[0; 0]; [1; 0]; [0; 1]; [2; 3]]%Z;
       emb_requires_grad := true |};
  top_layer :=
    {| in_features := 2; out_features := 3;
       lin_weight := [[1; 0]; [0; 1]; [1; 1]]%Z;
       lin_bias := [0; 0; -2]%Z |};
  training := true;
|}.

(** What [train] sets up from the two files (an empty setup should it
    raise). *)
Definition setup : Setup Z * World Z :=
  match train_setup demo_params world0 with
  | Ok r => r
  | Raise _ =>
      ({| su_word_voc := new true false; su_label_voc := new false false;
          su_char_voc := new true true; su_batcher := new_batcher "cpu";
          su_train_loader :=
            {| dl_dataset := {| ds_words := []; ds_labels := []; ds_chars := None;
                                ds_word_dropout_prob := None;
                                ds_word_dropout_id := None |};
               dl_batch_size := 1; dl_shuffle := true;
               dl_collate_fn := new_batcher "cpu" |};
          su_val_loader :=
            {| dl_dataset := {| ds_words := []; ds_labels := []; ds_chars := None;
                                ds_word_dropout_prob := None;
                                ds_word_dropout_id := None |};
               dl_batch_size := 1; dl_shuffle := false;
               dl_collate_fn := new_batcher "cpu" |};
          su_model := demo_model; su_optimizer := 0;
          su_loss_func := {| ignore_index := 0 |} |}, world0)
  end.

(** The labeler [train] builds from the two files (an empty one should
    it raise), and the same labeler with a batcher that pads without a
    leading slot. *)
Definition blank : SequenceLabeler Z := {|
  params := demo_params;
  word_voc := new true false;
  label_voc := new false false;
  char_voc := new true true;
  batcher := new_batcher "cpu";
  model := demo_model;
  stats := ∅;
|}.

Definition trained : SequenceLabeler Z :=
  match train demo_params world0 with
  | Ok (self, _) => self
  | Raise _ => blank
  end.

Definition without_lead_slot (self : SequenceLabeler Z) : SequenceLabeler Z := {|
  params := params self;
  word_voc := word_voc self;
  label_voc := label_voc self;
  char_voc := char_voc self;
  batcher := {| device := device (batcher self); lead_slot := false;
                word_pad := word_pad (batcher self);
                label_pad := label_pad (batcher self);
                char_pad := char_pad (batcher self) |};
  model := model self;
  stats := stats self;
|}.

(** The validation loader [train] builds, a validation pass over it, and
    a call of [predict]. *)
Definition ids_or_nil (r : result (list (list nat))) : list (list nat) :=
  match r with
  | Ok ids => ids
  | Raise _ => []
  end.

Definition val_loader : DataLoader Z := {|
  dl_dataset :=
    {| ds_words := ids_or_nil (encode (word_voc trained) valid_sentences);
       ds_labels := ids_or_nil (encode (label_voc trained) valid_labels);
       ds_chars := None;
       ds_word_dropout_prob := None; ds_word_dropout_id := None |};
  dl_batch_size := 2;
  dl_shuffle := false;
  dl_collate_fn := batcher trained;
|}.

Definition validated : SimpleSequenceModel Z * Stats * World Z :=
  match validate (label_voc trained) val_loader (model trained) world0 with
  | Ok r => r
  | Raise _ => ((demo_model, ∅), world0)
  end.

Definition new_sentences : list (list string) :=
  [ ["Jane"; "lives"; "in"; "New"; "York"; "City"; "."];
    ["Ekeus"; "heads"; "for"; "Baghdad"];
    ["United"; "Nations"; "."] ].

Definition predicted : list (list string) * SequenceLabeler Z * World Z :=
  match predict trained new_sentences world0 with
  | Ok r => r
  | Raise _ => (([], blank), world0)
  end.

End Demo.

(** * Properties *)

(** ** Comprehensions and loops that can raise *)

Module PyFacts.

Lemma comprehension_Forall2 {A B} (f : A → result B) l bs :
  comprehension f l = Ok bs ↔ Forall2 (λ a b, f a = Ok b) l bs.
Proof.
  revert bs. induction l as [|a l IH]; intros bs; simpl.
  - split; [intros [= <-]; constructor | by inversion 1].
  - destruct (f a) as [b|e] eqn:Hfa; simpl.
    + destruct (comprehension f l) as [bs'|e] eqn:Hl; simpl.
      * split.
        -- intros [= <-]. constructor; [done|]. by apply IH.
        -- inversion 1 as [|? b' ? bs'' Hb Hbs]; subst.
           apply IH in Hbs. congruence.
      * split; [done|]. inversion 1 as [|? b' ? bs'' Hb Hbs]; subst.
        apply IH in Hbs. congruence.
    + split; [done|]. inversion 1; congruence.
Qed.

Lemma comprehension_total {A B} (f : A → result B) (g : A → B) l :
  Forall (λ a, f a = Ok (g a)) l → comprehension f l = Ok (g <$> l).
Proof.
  intros Hl. apply comprehension_Forall2.
  induction Hl; simpl; constructor; auto.
Qed.

Lemma comprehension_fmap {A B C} (f : B → result C) (g : A → B) l :
  comprehension f (g <$> l) = comprehension (λ a, f (g a)) l.
Proof. induction l as [|a l IH]; csimpl; [done|]. by rewrite IH. Qed.

Lemma comprehension_length {A B} (f : A → result B) l bs :
  comprehension f l = Ok bs → length bs = length l.
Proof.
  intros Hc. apply comprehension_Forall2 in Hc.
  symmetry. by eapply Forall2_length.
Qed.

Lemma comprehension_ext {A B} (f g : A → result B) l :
  Forall (λ a, f a = g a) l → comprehension f l = comprehension g l.
Proof.
  induction 1 as [|a l Ha _ IH]; simpl; [done|]. by rewrite Ha, IH.
Qed.

Lemma getitem_lookup {A} (l : list A) i a : l !! i = Some a → getitem l i = Ok a.
Proof. unfold getitem. by intros ->. Qed.

Lemma getitem_Ok {A} (l : list A) i a : getitem l i = Ok a ↔ l !! i = Some a.
Proof.
  unfold getitem. destruct (l !! i); split; intros; simplify_eq; done.
Qed.

Lemma for_each_cons {A S} (body : S → A → result S) s a l :
  for_each body s (a :: l) = Py.bind (body s a) (λ s', for_each body s' l).
Proof. done. Qed.

Lemma for_each_app {A S} (body : S → A → result S) s l1 l2 :
  for_each body s (l1 ++ l2) = Py.bind (for_each body s l1) (λ s', for_each body s' l2).
Proof.
  revert s. induction l1 as [|a l1 IH]; intros s; simpl; [done|].
  destruct (body s a); simpl; auto.
Qed.

Lemma at2_Some {A} (x : list (list A)) i j a :
  at2 x i j = Some a ↔ ∃ row, x !! i = Some row ∧ row !! j = Some a.
Proof.
  unfold at2. destruct (x !! i) as [row|]; split.
  - eauto.
  - by intros (? & [= <-] & ?).
  - done.
  - by intros (? & ? & ?).
Qed.

End PyFacts.

(** ** Chunk extraction and re-serialization *)

Module NerUtilFacts.
Import NerUtil.

(** The labels already written for the positions [j .. i-1] while the
    scanner is at position [i] with [cur] open. *)
Definition written (cur : open_chunk) (i j : nat) : list tag :=
  match cur with
  | None => replicate (i - j) TagO
  | Some (s, ty) =>
      replicate (s - j) TagO ++ TagB ty :: replicate (i - s - 1) (TagI ty)
  end.

Definition scan_ready (cur : open_chunk) (i j : nat) : Prop :=
  match cur with
  | None => j ≤ i
  | Some (s, _) => j ≤ s ∧ s < i
  end.

Lemma serialize_close cur i j cs n :
  scan_ready cur i j →
  (∀ k, k ≤ i → serialize_from k cs n = replicate (i - k) TagO ++ serialize_from i cs n) →
  serialize_from j (close cur i ++ cs) n = written cur i j ++ serialize_from i cs n.
Proof.
  destruct cur as [[s ty]|]; simpl; intros Hr Hk.
  - by rewrite <- app_assoc.
  - by apply Hk.
Qed.

Lemma replicate_snoc {A} (x : A) n : replicate (S n) x = replicate n x ++ [x].
Proof. induction n as [|n IH]; simpl; [done|]. by rewrite <- IH. Qed.

Lemma serialize_scan tags : ∀ i cur j n,
  n = i + length tags →
  scan_ready cur i j →
  well_formed_from (snd <$> cur) tags = true →
  serialize_from j (scan_chunks i cur tags) n = written cur i j ++ tags.
Proof.
  induction tags as [|t rest IH]; intros i cur j n Hn Hr Hwf.
  - simpl in *. destruct cur as [[s ty]|]; simpl.
    + replace (n - i) with 0 by lia. simpl. by rewrite <- app_assoc.
    + rewrite app_nil_r. f_equal. lia.
  - destruct t as [|ty|ty]; simpl in Hwf |- *.
    + rewrite serialize_close; [|done|].
      * rewrite (IH (S i) None i n); [|simpl in *; first [lia|done]..].
        simpl. by replace (S i - i) with 1 by lia.
      * intros k Hk. rewrite !(IH (S i) None _ n); simpl in *; try lia; try done.
        rewrite app_assoc, <- replicate_add. do 2 f_equal. lia.
    + rewrite serialize_close; [|done|].
      * rewrite (IH (S i) (Some (i, ty)) i n); [|simpl in *; first [lia|done]..].
        unfold written. replace (S i - i - 1) with 0 by lia.
        by rewrite Nat.sub_diag.
      * intros k Hk.
        rewrite !(IH (S i) (Some (i, ty)) _ n); [|simpl in *; first [lia|done]..].
        unfold written. by rewrite Nat.sub_diag, app_assoc.
    + apply andb_prop in Hwf as [Hp Hwf]. apply bool_decide_eq_true in Hp.
      destruct cur as [[s ty']|]; simpl in Hp; [|done].
      injection Hp as ->. simpl. rewrite bool_decide_eq_true_2 by done.
      destruct Hr as [Hj Hs].
      rewrite (IH (S i) (Some (s, ty)) j n); [|simpl in *; first [lia|done]..].
      simpl. rewrite <- !app_assoc. f_equal. simpl. f_equal.
      replace (S i - s - 1) with (S (i - s - 1)) by lia.
      by rewrite replicate_snoc, <- app_assoc.
Qed.

(** *** Counting with [bump] and [tally] *)

Definition hit (ty key ty' key' : string) : nat :=
  if bool_decide (ty = ty' ∧ key = key') then 1 else 0.

Lemma count_bump ty key st ty' key' :
  count (bump ty key st) ty' key' = count st ty' key' + hit ty key ty' key'.
Proof.
  unfold count, bump, stats_get, counter_get, hit.
  destruct (decide (ty = ty')) as [<-|Hty].
  - rewrite lookup_insert_eq. simpl.
    destruct (decide (key = key')) as [<-|Hkey].
    + rewrite lookup_insert_eq, bool_decide_eq_true_2 by done. simpl. lia.
    + rewrite lookup_insert_ne, bool_decide_eq_false_2 by intuition congruence. lia.
  - rewrite lookup_insert_ne, bool_decide_eq_false_2 by intuition congruence. lia.
Qed.

Lemma count_tally key ty st ty' key' :
  count (tally key ty st) ty' key' =
  count st ty' key' + hit ty key ty' key' + hit "total" key ty' key'.
Proof. unfold tally. by rewrite !count_bump. Qed.

(** Case analysis on every test left by [hit] and [filter]. *)
Ltac count_cases :=
  unfold hit; rewrite ?filter_cons;
  repeat first [case_bool_decide | case_decide];
  simpl; first [lia | exfalso; intuition congruence].

(** Predicted chunks of type [ty], split by whether the gold sequence has
    the identical chunk. *)
Definition matched (ty : string) (other cs : list chunk) : list chunk :=
  filter (λ c, chunk_type c = ty ∧ c ∈ other) cs.

Definition unmatched (ty : string) (other cs : list chunk) : list chunk :=
  filter (λ c, chunk_type c = ty ∧ c ∉ other) cs.

Lemma score_predicted_counts gold ty cs : ty ≠ "total" → ∀ st,
  let st' := foldl (score_predicted gold) st cs in
  count st' ty "tp" = count st ty "tp" + length (matched ty gold cs) ∧
  count st' ty "fp" = count st ty "fp" + length (unmatched ty gold cs) ∧
  count st' ty "fn" = count st ty "fn".
Proof.
  intros Hty. unfold matched, unmatched.
  induction cs as [|c cs IH]; intros st; simpl; [lia|].
  destruct (IH (score_predicted gold st c)) as (-> & -> & ->).
  unfold score_predicted.
  destruct (decide (c ∈ gold)) as [Hin|Hin].
  - rewrite bool_decide_eq_true_2, !count_tally by done.
    repeat split; count_cases.
  - rewrite bool_decide_eq_false_2, !count_tally by done.
    repeat split; count_cases.
Qed.

Lemma score_gold_counts pred ty cs : ty ≠ "total" → ∀ st,
  let st' := foldl (score_gold pred) st cs in
  count st' ty "tp" = count st ty "tp" ∧
  count st' ty "fp" = count st ty "fp" ∧
  count st' ty "fn" = count st ty "fn" + length (unmatched ty pred cs).
Proof.
  intros Hty. unfold unmatched.
  induction cs as [|c cs IH]; intros st; simpl; [lia|].
  destruct (IH (score_gold pred st c)) as (-> & -> & ->).
  unfold score_gold.
  destruct (decide (c ∈ pred)) as [Hin|Hin].
  - rewrite bool_decide_eq_true_2 by done.
    repeat split; count_cases.
  - rewrite bool_decide_eq_false_2, !count_tally by done.
    repeat split; count_cases.
Qed.

Lemma ratio_or_zero_ok a b :
  ∃ q, ratio_or_zero a b = Ok q ∧ (Qeq_bool b 0 = true → q = 0%Q).
Proof.
  unfold ratio_or_zero, truediv. destruct (Qeq_bool b 0) eqn:Hb.
  - by exists 0%Q.
  - by exists (a / b)%Q.
Qed.

Lemma Q_of_nat_sum_zero a b :
  a + b = 0 → Qeq_bool (Q_of_nat a + Q_of_nat b) 0 = true.
Proof. intros H. by replace a with 0 by lia; replace b with 0 by lia. Qed.

End NerUtilFacts.

Import NerUtil NerUtilFacts.

(** C9, as stated, fails: an [I-TYPE] label that opens a chunk (here after
    [O]) is extracted as a chunk and written back as [B-TYPE]. *)
Lemma bio_roundtrip_fails_on_leading_inside :
  serialize (length [TagO; TagI "PER"]) (get_chunks [TagO; TagI "PER"])
  ≠ [TagO; TagI "PER"].
Proof. vm_compute. discriminate. Qed.

(** No re-serialization at all can round-trip every label sequence: two
    different sequences have the same chunks. *)
Lemma get_chunks_not_injective :
  get_chunks [TagO; TagI "PER"] = get_chunks [TagO; TagB "PER"].
Proof. reflexivity. Qed.

(** C9 (amended): for every label sequence in which each [I-TYPE] label
    continues a chunk of its type, extracting the chunks and writing them
    back as per-token B/I/O labels yields the original sequence. *)
Theorem bio_roundtrip_well_formed (tags : list tag) :
  well_formed tags = true →
  serialize (length tags) (get_chunks tags) = tags.
Proof.
  intros Hwf. unfold serialize, get_chunks.
  rewrite (serialize_scan tags 0 None 0 (length tags)); simpl; auto.
Qed.

Lemma bio_roundtrip_well_formed_witness :
  well_formed (parse_tag <$> ["B-ORG"; "I-ORG"; "O"; "B-PER"; "O"; "O"; "B-LOC"; "O"]) = true ∧
  serialize (length (parse_tag <$> ["B-ORG"; "I-ORG"; "O"; "B-PER"; "O"; "O"; "B-LOC"; "O"]))
    (get_chunks (parse_tag <$> ["B-ORG"; "I-ORG"; "O"; "B-PER"; "O"; "O"; "B-LOC"; "O"]))
  = parse_tag <$> ["B-ORG"; "I-ORG"; "O"; "B-PER"; "O"; "O"; "B-LOC"; "O"].
Proof.
  split; [reflexivity|].
  apply (bio_roundtrip_well_formed
           (parse_tag <$> ["B-ORG"; "I-ORG"; "O"; "B-PER"; "O"; "O"; "B-LOC"; "O"])).
  reflexivity.
Defined.

(** C3: chunk matching is exact.  For every entity type, scoring a
    predicted against a gold label sequence adds to the type's true
    positives exactly the predicted chunks whose span and type are also a
    gold chunk, to its false positives every other predicted chunk, and to
    its false negatives every gold chunk that is not a predicted chunk; for
    gold [B-PER, I-PER, O] and predicted [B-PER, O, O] that is FN=1 and FP=1
    (and no true positive) for PER. *)
Theorem evaluate_sentence_exact_match (pred gold : list tag) (st : Stats) (ty : string) :
  ty ≠ "total" →
  (count (evaluate_sentence pred gold st) ty "tp"
     = count st ty "tp" + length (matched ty (get_chunks gold) (get_chunks pred)) ∧
   count (evaluate_sentence pred gold st) ty "fp"
     = count st ty "fp" + length (unmatched ty (get_chunks gold) (get_chunks pred)) ∧
   count (evaluate_sentence pred gold st) ty "fn"
     = count st ty "fn" + length (unmatched ty (get_chunks pred) (get_chunks gold))) ∧
  (count (evaluate_sentence (parse_tag <$> ["B-PER"; "O"; "O"])
                            (parse_tag <$> ["B-PER"; "I-PER"; "O"]) ∅) "PER" "fn" = 1 ∧
   count (evaluate_sentence (parse_tag <$> ["B-PER"; "O"; "O"])
                            (parse_tag <$> ["B-PER"; "I-PER"; "O"]) ∅) "PER" "fp" = 1 ∧
   count (evaluate_sentence (parse_tag <$> ["B-PER"; "O"; "O"])
                            (parse_tag <$> ["B-PER"; "I-PER"; "O"]) ∅) "PER" "tp" = 0).
Proof.
  intros Hty. split; [|by vm_compute].
  unfold evaluate_sentence.
  destruct (score_gold_counts (get_chunks pred) ty (get_chunks gold) Hty
              (foldl (score_predicted (get_chunks gold)) st (get_chunks pred)))
    as (-> & -> & ->).
  destruct (score_predicted_counts (get_chunks gold) ty (get_chunks pred) Hty st)
    as (-> & -> & ->).
  done.
Qed.

Lemma evaluate_sentence_exact_match_witness :
  "LOC" ≠ "total" ∧
  count (evaluate_sentence (parse_tag <$> ["B-LOC"; "I-LOC"; "O"; "B-LOC"])
                           (parse_tag <$> ["B-LOC"; "I-LOC"; "O"; "O"]) ∅) "LOC" "fp"
  = count ∅ "LOC" "fp" +
    length (unmatched "LOC" (get_chunks (parse_tag <$> ["B-LOC"; "I-LOC"; "O"; "O"]))
                            (get_chunks (parse_tag <$> ["B-LOC"; "I-LOC"; "O"; "B-LOC"]))).
Proof.
  split; [discriminate|].
  apply (evaluate_sentence_exact_match
           (parse_tag <$> ["B-LOC"; "I-LOC"; "O"; "B-LOC"])
           (parse_tag <$> ["B-LOC"; "I-LOC"; "O"; "O"]) ∅ "LOC").
  discriminate.
Defined.

(** C4: [prf] never raises, and it reports precision 0 when TP+FP = 0 and
    recall 0 when TP+FN = 0; so a type with neither predicted nor gold
    chunks gets precision and recall 0. *)
Theorem prf_defaults_to_zero (c : Counter) :
  ∃ p r f1, prf c = Ok (p, r, f1) ∧
    (counter_get c "tp" + counter_get c "fp" = 0 → p = 0%Q) ∧
    (counter_get c "tp" + counter_get c "fn" = 0 → r = 0%Q).
Proof.
  unfold prf.
  destruct (ratio_or_zero_ok (Q_of_nat (counter_get c "tp"))
              (Q_of_nat (counter_get c "tp") + Q_of_nat (counter_get c "fp")))
    as (p & Hp & Hp0).
  destruct (ratio_or_zero_ok (Q_of_nat (counter_get c "tp"))
              (Q_of_nat (counter_get c "tp") + Q_of_nat (counter_get c "fn")))
    as (r & Hr & Hr0).
  destruct (ratio_or_zero_ok (2 * p * r) (p + r)) as (f1 & Hf & _).
  exists p, r, f1. cbn. rewrite Hp. cbn. rewrite Hr. cbn. rewrite Hf. cbn.
  split; [done|]. split; intros H.
  - by apply Hp0, Q_of_nat_sum_zero.
  - by apply Hr0, Q_of_nat_sum_zero.
Qed.

(** ** The per-word model *)

Section model_facts.
Context {T : Type} `{Backend T}.
Import PyFacts.

(** The row of the embedding table for an id, and the scores of the
    output unit on it. *)
Definition row_of (m : SimpleSequenceModel T) (w : nat) : list T :=
  default [] (emb_weight (word_embedding m) !! w).

Definition scores_of (m : SimpleSequenceModel T) (w : nat) : list T :=
  linear1 (top_layer m) (row_of m w).

Definition ids_in_range (m : SimpleSequenceModel T) (words : list (list nat)) : Prop :=
  Forall (Forall (λ w, w < length (emb_weight (word_embedding m)))) words.

Lemma embedding_in_range (m : SimpleSequenceModel T) words :
  ids_in_range m words →
  embedding (word_embedding m) words
  = Ok ((λ row : list nat, row_of m <$> row) <$> words).
Proof.
  intros Hin. unfold embedding.
  apply comprehension_total. eapply Forall_impl; [exact Hin|].
  intros row Hrow. apply comprehension_total.
  eapply Forall_impl; [exact Hrow|]. intros w Hw. simpl in Hw.
  apply lookup_lt_is_Some_2 in Hw as [r Hr].
  unfold row_of. rewrite Hr. by apply getitem_lookup.
Qed.

Lemma embedding_Ok_in_range (m : SimpleSequenceModel T) words x :
  embedding (word_embedding m) words = Ok x → ids_in_range m words.
Proof.
  unfold embedding, ids_in_range. intros Hc.
  apply comprehension_Forall2 in Hc.
  induction Hc as [|row r words x Hrow _ IH]; constructor; [|done].
  apply comprehension_Forall2 in Hrow.
  induction Hrow as [|w v row r Hw _ IHrow]; constructor; [|done].
  apply getitem_Ok in Hw. by eapply lookup_lt_Some.
Qed.

Lemma forward_in_range (m : SimpleSequenceModel T) words :
  ids_in_range m words →
  forward m words = Ok ((λ row : list nat, scores_of m <$> row) <$> words).
Proof.
  intros Hin. unfold forward. rewrite (embedding_in_range m words Hin).
  cbn. f_equal. unfold linear. rewrite <- list_fmap_compose.
  apply list_fmap_ext. intros _ row _. simpl.
  by rewrite <- list_fmap_compose.
Qed.

Lemma forward_Ok (m : SimpleSequenceModel T) words scores :
  forward m words = Ok scores →
  ids_in_range m words ∧
  scores = (λ row : list nat, scores_of m <$> row) <$> words.
Proof.
  intros Hf. assert (ids_in_range m words) as Hin.
  { unfold forward in Hf.
    destruct (embedding (word_embedding m) words) as [x|e] eqn:He; [|done].
    by eapply embedding_Ok_in_range. }
  split; [done|]. rewrite (forward_in_range m words Hin) in Hf. congruence.
Qed.

Lemma at2_fmap {A B} (f : A → B) (x : list (list A)) i j :
  at2 ((λ row : list A, f <$> row) <$> x) i j = f <$> at2 x i j.
Proof.
  unfold at2. rewrite list_lookup_fmap.
  destruct (x !! i) as [row|]; simpl; [|done]. by rewrite list_lookup_fmap.
Qed.

Lemma scores_of_word_scores (m : SimpleSequenceModel T) w :
  w < length (emb_weight (word_embedding m)) →
  word_scores m w = Some (scores_of m w).
Proof.
  intros Hw. apply lookup_lt_is_Some_2 in Hw as [r Hr].
  unfold word_scores, scores_of, row_of. by rewrite Hr.
Qed.

Lemma ids_in_range_at2 (m : SimpleSequenceModel T) words i j w :
  ids_in_range m words → at2 words i j = Some w →
  w < length (emb_weight (word_embedding m)).
Proof.
  intros Hin Hw. apply at2_Some in Hw as (row & Hrow & Hw).
  eapply Forall_lookup_1 in Hin; [|exact Hrow].
  by eapply Forall_lookup_1 in Hin; [|exact Hw].
Qed.

Lemma length_linear1 (l : Linear T) x n :
  length (lin_weight l) = n → length (lin_bias l) = n → length (linear1 l x) = n.
Proof. intros Hw Hb. unfold linear1. rewrite length_zip_with. lia. Qed.

End model_facts.

(** C6: on a word-id batch of shape (n_sentences, n_words) whose ids have a
    row in the embedding table, [forward] returns scores of shape
    (n_sentences, n_words, n_labels); the scores at a position are the
    scores of the word id standing there, so that any other batch with the
    same id at that position gets the same scores at it. *)
Theorem forward_scores_each_word_alone {T : Type} `{Backend T}
    (m : SimpleSequenceModel T) (words : list (list nat))
    (n_sentences n_words n_labels : nat) :
  length words = n_sentences →
  Forall (λ row, length row = n_words) words →
  ids_in_range m words →
  length (lin_weight (top_layer m)) = n_labels →
  length (lin_bias (top_layer m)) = n_labels →
  ∃ scores,
    forward m words = Ok scores ∧
    length scores = n_sentences ∧
    Forall (λ row, length row = n_words ∧ Forall (λ v, length v = n_labels) row) scores ∧
    (∀ i j w, at2 words i j = Some w → at2 scores i j = word_scores m w) ∧
    (∀ words' scores' i j w,
       forward m words' = Ok scores' →
       at2 words i j = Some w → at2 words' i j = Some w →
       at2 scores' i j = at2 scores i j).
Proof.
  intros Hn Hrows Hin Hw Hb.
  exists ((λ row : list nat, scores_of m <$> row) <$> words).
  split; [by apply forward_in_range|].
  split; [by rewrite length_fmap|].
  split.
  - apply Forall_fmap. eapply Forall_impl; [exact Hrows|].
    intros row Hrow. simpl. rewrite length_fmap. split; [done|].
    apply Forall_fmap, Forall_forall. intros w _. simpl.
    by apply length_linear1.
  - split.
    + intros i j w Hij. rewrite at2_fmap, Hij. simpl.
      symmetry. apply scores_of_word_scores. by eapply ids_in_range_at2.
    + intros words' scores' i j w Hf Hij Hij'.
      apply forward_Ok in Hf as [_ ->]. by rewrite !at2_fmap, Hij, Hij'.
Qed.

Lemma forward_scores_each_word_alone_witness :
  ∃ scores,
    forward Demo.demo_model [[1; 2; 3]; [3; 0; 0]] = Ok scores ∧
    length scores = 2 ∧
    Forall (λ row, length row = 3 ∧ Forall (λ v, length v = 3) row) scores ∧
    (∀ i j w, at2 [[1; 2; 3]; [3; 0; 0]] i j = Some w →
              at2 scores i j = word_scores Demo.demo_model w) ∧
    (∀ words' scores' i j w,
       forward Demo.demo_model words' = Ok scores' →
       at2 [[1; 2; 3]; [3; 0; 0]] i j = Some w → at2 words' i j = Some w →
       at2 scores' i j = at2 scores i j).
Proof.
  apply (forward_scores_each_word_alone Demo.demo_model [[1; 2; 3]; [3; 0; 0]] 2 3 3).
  - reflexivity.
  - repeat constructor.
  - unfold ids_in_range. repeat constructor.
  - reflexivity.
  - reflexivity.
Defined.

(** ** Loaders *)

Section loader_facts.
Context {T : Type} `{NerUtilOps T}.
Import PyFacts.

Lemma bindM_Ok {A B} (m : M T A) (k : A → M T B) w a w' :
  m w = Ok (a, w') → (m ≫= k) w = k a w'.
Proof. unfold mbind, M_bind, bindM. by intros ->. Qed.

Lemma bindM_ret {A B} (a : A) (k : A → M T B) w : (ret a ≫= k) w = k a w.
Proof. done. Qed.

Lemma lift_Ok {A B} (r : result A) (k : A → M T B) w a :
  r = Ok a → (lift r ≫= k) w = k a w.
Proof. by intros ->. Qed.

Lemma for_eachM_cons {A S} (body : S → A → M T S) s a l w :
  for_eachM body s (a :: l) w
  = match body s a w with
    | Ok (s', w') => for_eachM body s' l w'
    | Raise e => Raise e
    end.
Proof. done. Qed.

(** A property of the loop state that every iteration keeps holds at the
    end of the loop. *)
Lemma for_eachM_invariant {A S} (P : S → Prop) (body : S → A → M T S) l :
  (∀ s a w s' w', body s a w = Ok (s', w') → P s → P s') →
  ∀ s w s' w', for_eachM body s l w = Ok (s', w') → P s → P s'.
Proof.
  intros Hbody. induction l as [|a l IH]; intros s w s' w' Hrun Hs.
  - by injection Hrun as <- <-.
  - rewrite for_eachM_cons in Hrun.
    destruct (body s a w) as [[s1 w1]|e] eqn:Hb; [|done].
    eapply IH; [exact Hrun|]. by eapply Hbody.
Qed.

Lemma collectM_Ok {A B} (f : A → M T B) (g : A → B) l w :
  Forall (λ a, f a w = Ok (g a, w)) l → collectM f l w = Ok (g <$> l, w).
Proof.
  induction 1 as [|a l Ha _ IH]; simpl; [done|].
  unfold bindM. by rewrite Ha, IH.
Qed.

(** The example a dataset holds at an index. *)
Definition item_of (ds : SequenceDataset T) (idx : nat) : Item :=
  {| item_words := default [] (ds_words ds !! idx);
     item_labels := default [] (ds_labels ds !! idx);
     item_chars := (λ chars : list (list (list nat)), default [] (chars !! idx))
                     <$> ds_chars ds |}.

(** A dataset without token dropout whose fields have one entry per
    sentence. *)
Definition plain_dataset (ds : SequenceDataset T) : Prop :=
  ds_word_dropout_prob ds = None ∧
  length (ds_labels ds) = length (ds_words ds) ∧
  match ds_chars ds with
  | Some chars => length chars = length (ds_words ds)
  | None => True
  end.

Lemma dataset_getitem_plain ds idx w :
  plain_dataset ds → idx < length (ds_words ds) →
  with_py_rng (dataset_getitem ds idx) w = Ok (item_of ds idx, w).
Proof.
  intros (Hdrop & Hlab & Hch) Hidx.
  unfold with_py_rng, dataset_getitem, item_of.
  destruct (lookup_lt_is_Some_2 (ds_words ds) idx Hidx) as [ws Hws].
  destruct (lookup_lt_is_Some_2 (ds_labels ds) idx ltac:(lia)) as [ys Hys].
  rewrite (getitem_lookup _ _ _ Hws), (getitem_lookup _ _ _ Hys), Hws, Hys.
  cbn. rewrite Hdrop.
  destruct (ds_chars ds) as [chars|]; cbn.
  - destruct (lookup_lt_is_Some_2 chars idx ltac:(lia)) as [cs Hcs].
    rewrite (getitem_lookup _ _ _ Hcs), Hcs. cbn. by destruct w.
  - by destruct w.
Qed.

Lemma fetch_batch_plain dl idxs w :
  plain_dataset (dl_dataset dl) →
  Forall (λ idx, idx < length (ds_words (dl_dataset dl))) idxs →
  fetch_batch dl idxs w
  = Ok (collate (dl_collate_fn dl) (item_of (dl_dataset dl) <$> idxs), w).
Proof.
  intros Hds Hidx. unfold fetch_batch.
  erewrite bindM_Ok; [done|].
  apply collectM_Ok. eapply Forall_impl; [exact Hidx|].
  intros idx Hlt. by apply dataset_getitem_plain.
Qed.

(** *** Cutting a list into batches *)

Lemma batched_fuel_concat {A} (l : list A) : ∀ fuel size,
  0 < size → length l ≤ fuel → concat (batched_fuel fuel size l) = l.
Proof.
  induction l as [l IH] using (induction_ltof1 _ length).
  unfold ltof in IH. intros fuel size Hsize Hfuel.
  destruct fuel as [|fuel]; simpl.
  - destruct l; [done|simpl in Hfuel; lia].
  - destruct l as [|a l']; [done|].
    simpl concat. rewrite IH.
    + apply take_drop.
    + rewrite length_drop. simpl. lia.
    + done.
    + rewrite length_drop. simpl in *. lia.
Qed.

Lemma batched_concat {A} (l : list A) size :
  0 < size → concat (batched size l) = l.
Proof. intros. by apply batched_fuel_concat. Qed.

Lemma batched_fuel_nonempty {A} (l : list A) : ∀ fuel size,
  0 < size → Forall (λ c, c ≠ []) (batched_fuel fuel size l).
Proof.
  induction l as [l IH] using (induction_ltof1 _ length).
  unfold ltof in IH. intros fuel size Hsize.
  destruct fuel as [|fuel]; simpl; [constructor|].
  destruct l as [|a l']; [constructor|].
  constructor.
  - destruct size; [lia|done].
  - apply IH; [|done]. rewrite length_drop. simpl. lia.
Qed.

Lemma DataLoader_iter_plain dl w :
  plain_dataset (dl_dataset dl) → dl_shuffle dl = false → 0 < dl_batch_size dl →
  DataLoader_iter dl w
  = Ok ((λ idxs, collate (dl_collate_fn dl) (item_of (dl_dataset dl) <$> idxs))
          <$> batched (dl_batch_size dl) (seq 0 (length (ds_words (dl_dataset dl)))), w).
Proof.
  intros Hds Hsh Hsize. unfold DataLoader_iter. rewrite Hsh, bindM_ret.
  apply collectM_Ok. apply Forall_forall. intros idxs Hin.
  apply fetch_batch_plain; [done|].
  apply Forall_forall. intros idx Hidx.
  assert (idx ∈ concat (batched (dl_batch_size dl)
                          (seq 0 (length (ds_words (dl_dataset dl)))))) as Hc.
  { apply list_elem_of_In, in_concat. exists idxs.
    split; by apply list_elem_of_In. }
  rewrite batched_concat in Hc by done.
  apply elem_of_seq in Hc. lia.
Qed.

End loader_facts.

(** ** Decoding the best label *)

Section argmax_facts.
Context {T : Type} `{Backend T}.
Import PyFacts.

Lemma argmax_from_bound (l : list T) : ∀ best_i best i,
  best_i < i → argmax_from best_i best i l < i + length l.
Proof.
  induction l as [|x l IH]; intros best_i best i Hlt; simpl; [lia|].
  destruct (Tltb best x).
  - specialize (IH i x (S i)). lia.
  - specialize (IH best_i best (S i)). lia.
Qed.

Lemma argmax1_bound (l : list T) :
  0 < length l → ∃ k, argmax1 l = Ok k ∧ k < length l.
Proof.
  destruct l as [|x l]; simpl; [lia|]. intros _.
  eexists. split; [done|].
  pose proof (argmax_from_bound l 0 x 1). lia.
Qed.

(** The label id the model decodes for a word id. *)
Definition label_id (m : SimpleSequenceModel T) (w : nat) : nat :=
  match argmax1 (scores_of m w) with
  | Ok k => k
  | Raise _ => 0
  end.

Definition output_ready (m : SimpleSequenceModel T) (n_labels : nat) : Prop :=
  length (lin_weight (top_layer m)) = n_labels ∧
  length (lin_bias (top_layer m)) = n_labels ∧
  0 < n_labels.

Lemma label_id_spec (m : SimpleSequenceModel T) n_labels w :
  output_ready m n_labels →
  argmax1 (scores_of m w) = Ok (label_id m w) ∧ label_id m w < n_labels.
Proof.
  intros (Hw & Hb & Hpos). unfold label_id.
  destruct (argmax1_bound (scores_of m w)) as (k & -> & Hk).
  - unfold scores_of. rewrite (length_linear1 _ _ n_labels); done.
  - split; [done|]. unfold scores_of in Hk.
    by rewrite (length_linear1 _ _ n_labels) in Hk.
Qed.

Lemma argmax_dim2_scores (m : SimpleSequenceModel T) n_labels (words : list (list nat)) :
  output_ready m n_labels →
  argmax_dim2 ((λ row : list nat, scores_of m <$> row) <$> words)
  = Ok ((λ row : list nat, label_id m <$> row) <$> words).
Proof.
  intros Hready. unfold argmax_dim2. rewrite comprehension_fmap.
  apply comprehension_total, Forall_forall. intros row _.
  rewrite comprehension_fmap.
  apply comprehension_total, Forall_forall. intros w _.
  by destruct (label_id_spec m n_labels w Hready) as [-> _].
Qed.

(** Scores and the decoded label do not look at the training flag. *)
Lemma label_id_set_training (m : SimpleSequenceModel T) mode w :
  label_id (set_training mode m) w = label_id m w.
Proof. done. Qed.

End argmax_facts.

(** ** [predict] *)

Section predict_facts.
Context {T : Type} `{NerUtilOps T}.
Import PyFacts.

(** The label string [predict] gives to a word id. *)
Definition label_str (self : SequenceLabeler T) (w : nat) : string :=
  default "" (itos (label_voc self) !! label_id (model self) w).

(** The output expected for encoded sentences: every word on its own. *)
Definition labels_of (self : SequenceLabeler T) (Xwords : list (list nat))
  : list (list string) :=
  (λ ids : list nat, label_str self <$> ids) <$> Xwords.

Lemma comprehension_zip_snd {A B C} (f : B → result C) (a : list A) : ∀ b : list B,
  length a = length b →
  comprehension (λ tp : A * B, f tp.2) (zip a b) = comprehension f b.
Proof.
  induction a as [|x a IH]; intros [|y b] Hlen; simplify_eq/=; [done|].
  by rewrite IH.
Qed.

Lemma zip_app_exact {A B} (a : list A) (b1 b2 : list B) :
  length a = length b1 → zip a (b1 ++ b2) = zip a b1.
Proof.
  intros Hlen. rewrite zip_with_app_r, <- Hlen.
  rewrite firstn_all, drop_all. simpl. by rewrite app_nil_r.
Qed.

(** One row of a batch with a leading pad slot, decoded: the labels of
    the sentence's own words, whatever the padding. *)
Lemma predict_sentence_row (self : SequenceLabeler T) sentences out k tokens ids
    n_labels pad width :
  output_ready (model self) n_labels →
  n_labels ≤ length (itos (label_voc self)) →
  length out = k → sentences !! k = Some tokens → length ids = length tokens →
  predict_sentence (label_voc self) sentences out
    (label_id (model self) <$> pad_to pad 1 width ids)
  = Ok (out ++ [label_str self <$> ids]).
Proof.
  intros Hready Hitos Hout Htok Hlen. unfold predict_sentence.
  rewrite Hout, (getitem_lookup _ _ _ Htok). cbn.
  unfold pad_to. simpl replicate. rewrite fmap_app. simpl drop.
  rewrite drop_0, zip_app_exact by (by rewrite length_fmap).
  rewrite comprehension_zip_snd by (by rewrite length_fmap).
  rewrite comprehension_fmap.
  rewrite (comprehension_total _ (label_str self)); [done|].
  apply Forall_forall. intros w _. apply getitem_Ok. unfold label_str.
  destruct (label_id_spec (model self) n_labels w Hready) as [_ Hlt].
  destruct (lookup_lt_is_Some_2 (itos (label_voc self)) (label_id (model self) w))
    as [s Hs]; [lia|].
  by rewrite Hs.
Qed.

Lemma predict_rows (self : SequenceLabeler T) sentences Xwords n_labels pad width :
  output_ready (model self) n_labels →
  n_labels ≤ length (itos (label_voc self)) →
  Forall2 (λ ids sen, length ids = length sen) Xwords sentences →
  ∀ len k, k + len ≤ length Xwords →
  for_each (predict_sentence (label_voc self) sentences)
    (take k (labels_of self Xwords))
    ((λ idx, label_id (model self)
               <$> pad_to pad 1 width (default [] (Xwords !! idx))) <$> seq k len)
  = Ok (take (k + len) (labels_of self Xwords)).
Proof.
  intros Hready Hitos Hsame len.
  induction len as [|len IH]; intros k Hk.
  - simpl. by rewrite Nat.add_0_r.
  - rewrite <- cons_seq, fmap_cons, for_each_cons.
    destruct (lookup_lt_is_Some_2 Xwords k ltac:(lia)) as [ids Hids].
    destruct (Forall2_lookup_l _ _ _ _ _ Hsame Hids) as (tokens & Htok & Hlen).
    rewrite Hids. change (default [] (Some ids)) with ids.
    rewrite (predict_sentence_row self sentences _ k tokens ids n_labels); try done.
    + cbn [Py.bind]. rewrite <- (take_S_r _ _ (label_str self <$> ids)).
      * rewrite IH by lia. f_equal. f_equal. lia.
      * unfold labels_of. by rewrite list_lookup_fmap, Hids.
    + rewrite length_take. unfold labels_of. rewrite length_fmap. lia.
Qed.

Lemma app_eq_seq (c rest : list nat) k n :
  c ++ rest = seq k n →
  c = seq k (length c) ∧ rest = seq (k + length c) (n - length c) ∧ length c ≤ n.
Proof.
  intros Heq.
  assert (length c ≤ n) as Hle.
  { apply (f_equal length) in Heq. rewrite length_app, length_seq in Heq. lia. }
  split; [|split; [|done]].
  - apply (f_equal (take (length c))) in Heq.
    rewrite take_app_length, take_seq in Heq.
    by replace (length c `min` n) with (length c) in Heq by lia.
  - apply (f_equal (drop (length c))) in Heq.
    by rewrite drop_app_length, drop_seq in Heq.
Qed.

Lemma pad_to_in_range {A} (P : A → Prop) pad lead width (l : list A) :
  P pad → Forall P l → Forall P (pad_to pad lead width l).
Proof.
  intros Hpad Hl. unfold pad_to.
  repeat apply Forall_app_2; try done; by apply Forall_replicate.
Qed.

Lemma collate_words_seq (b : SequenceBatcher) (ds : SequenceDataset T) k len :
  ∃ width,
    Xbatch_words (collate b (item_of ds <$> seq k len))
    = (λ idx, pad_to (word_pad b) (lead_width b) width
                (default [] (ds_words ds !! idx))) <$> seq k len.
Proof.
  eexists. unfold collate. simpl. by rewrite <- list_fmap_compose.
Qed.

Lemma predict_batch_Ok voc sentences (m : SimpleSequenceModel T) out b w
    scores predicted out' :
  forward m (Xbatch_words b) = Ok scores →
  argmax_dim2 scores = Ok predicted →
  for_each (predict_sentence voc sentences) out predicted = Ok out' →
  predict_batch voc sentences (m, out) b w = Ok ((m, out'), w).
Proof.
  intros Hf Ha Hl. unfold predict_batch, mbind, M_bind, bindM, lift.
  by rewrite Hf, Ha, Hl.
Qed.

(** The loop of [predict] over the batches of a dataset that are still to
    come when the first [k] sentences are done. *)
Lemma predict_batches (self : SequenceLabeler T) sentences (ds : SequenceDataset T)
    n_labels mode w :
  lead_slot (batcher self) = true →
  output_ready (model self) n_labels →
  n_labels ≤ length (itos (label_voc self)) →
  ids_in_range (model self) (ds_words ds) →
  word_pad (batcher self) < length (emb_weight (word_embedding (model self))) →
  Forall2 (λ ids sen, length ids = length sen) (ds_words ds) sentences →
  ∀ chunks k,
    k ≤ length (ds_words ds) →
    concat chunks = seq k (length (ds_words ds) - k) →
    for_eachM (predict_batch (label_voc self) sentences)
      (set_training mode (model self), take k (labels_of self (ds_words ds)))
      ((λ idxs, collate (batcher self) (item_of ds <$> idxs)) <$> chunks) w
    = Ok ((set_training mode (model self), labels_of self (ds_words ds)), w).
Proof.
  intros Hlead Hready Hitos Hin Hpad Hsame.
  induction chunks as [|c chunks IH]; intros k Hk Hcat.
  - simpl in *. symmetry in Hcat. apply (f_equal length) in Hcat.
    rewrite length_seq in Hcat. simpl in Hcat.
    rewrite take_ge; [done|]. unfold labels_of. rewrite length_fmap. lia.
  - simpl in Hcat. apply app_eq_seq in Hcat as (Hc & Hrest & Hlen).
    set (len := length c) in *. clearbody len. subst c.
    rewrite fmap_cons, for_eachM_cons.
    destruct (collate_words_seq (batcher self) ds k len) as [width Hrows].
    unfold lead_width in Hrows. rewrite Hlead in Hrows.
    assert (ids_in_range (set_training mode (model self))
              ((λ idx, pad_to (word_pad (batcher self)) 1 width
                         (default [] (ds_words ds !! idx))) <$> seq k len)) as Hin'.
    { apply Forall_fmap, Forall_forall. intros idx _. simpl.
      apply pad_to_in_range; [done|].
      destruct (ds_words ds !! idx) as [ids|] eqn:Hids; simpl; [|constructor].
      by eapply Forall_lookup_1 in Hin. }
    erewrite predict_batch_Ok; cycle 1.
    + rewrite Hrows. by apply forward_in_range.
    + by apply (argmax_dim2_scores (set_training mode (model self)) n_labels).
    + rewrite <- list_fmap_compose. unfold compose.
      apply (predict_rows self sentences (ds_words ds) n_labels); try done. lia.
    + apply IH; [lia|]. rewrite Hrest. f_equal. lia.
Qed.

(** The labeler a call of [predict] leaves behind. *)
Definition with_model (self : SequenceLabeler T) (m : SimpleSequenceModel T)
  : SequenceLabeler T :=
  {| params := params self; word_voc := word_voc self;
     label_voc := label_voc self; char_voc := char_voc self;
     batcher := batcher self; model := m; stats := stats self |}.

Lemma predict_on_labels (self : SequenceLabeler T) sentences Xwords Y Xchars n_labels w :
  lead_slot (batcher self) = true →
  0 < batch_size (params self) →
  output_ready (model self) n_labels →
  n_labels ≤ length (itos (label_voc self)) →
  ids_in_range (model self) Xwords →
  word_pad (batcher self) < length (emb_weight (word_embedding (model self))) →
  Forall2 (λ ids sen, length ids = length sen) Xwords sentences →
  length Y = length Xwords → length Xchars = length Xwords →
  predict_on self sentences Xwords Y Xchars w
  = Ok ((labels_of self Xwords,
         with_model self (set_training false (model self))), w).
Proof.
  intros Hlead Hsize Hready Hitos Hin Hpad Hsame HY HC.
  unfold predict_on, DataLoader_new.
  destruct (decide (batch_size (params self) = 0)) as [?|_]; [lia|].
  rewrite (lift_Ok _ _ _ _ eq_refl).
  erewrite bindM_Ok; [|by apply DataLoader_iter_plain].
  cbn [dl_collate_fn dl_dataset dl_batch_size ds_words].
  erewrite bindM_Ok; cycle 1.
  { apply (predict_batches self sentences
             {| ds_words := Xwords; ds_labels := Y; ds_chars := Some Xchars;
                ds_word_dropout_prob := None; ds_word_dropout_id := None |}
             n_labels false w Hlead Hready Hitos Hin Hpad Hsame _ 0); [lia|].
    cbn [ds_words]. rewrite Nat.sub_0_r. by apply batched_concat. }
  done.
Qed.

(** *** What [predict] needs of a trained labeler *)

Definition token_id (voc : Vocabulary) (tok : string) : nat :=
  match encode_token voc tok with
  | Ok i => i
  | Raise _ => 0
  end.

Definition token_label (self : SequenceLabeler T) (tok : string) : string :=
  label_str self (token_id (word_voc self) tok).

Definition table_rows (self : SequenceLabeler T) : nat :=
  length (emb_weight (word_embedding (model self))).

Definition n_outputs (self : SequenceLabeler T) : nat :=
  length (lin_weight (top_layer (model self))).

(** The batches are not empty; the word and character vocabularies know
    an unknown id; the first label of the label vocabulary can be encoded;
    every id the word vocabulary or the batcher can produce has a row in
    the embedding table; and the output unit has one output per label, at
    least one, each with a label string. *)
Definition predict_ready (self : SequenceLabeler T) : Prop :=
  0 < batch_size (params self) ∧
  is_Some (unknown_idx (word_voc self)) ∧
  is_Some (unknown_idx (char_voc self)) ∧
  (∃ placeholder i,
     itos (label_voc self) !! 0 = Some placeholder ∧
     encode_token (label_voc self) placeholder = Ok i) ∧
  map_Forall (λ _ i, i < table_rows self) (stoi (word_voc self)) ∧
  (∀ u, unknown_idx (word_voc self) = Some u → u < table_rows self) ∧
  word_pad (batcher self) < table_rows self ∧
  output_ready (model self) (n_outputs self) ∧
  n_outputs self ≤ length (itos (label_voc self)).

Lemma encode_token_unknown voc tok :
  is_Some (unknown_idx voc) → encode_token voc tok = Ok (token_id voc tok).
Proof.
  intros [u Hu]. unfold token_id, encode_token.
  destruct (stoi voc !! tok); [done|]. by rewrite Hu.
Qed.

Lemma encode_unknown voc seqs :
  is_Some (unknown_idx voc) →
  encode voc seqs = Ok ((λ sen : list string, token_id voc <$> sen) <$> seqs).
Proof.
  intros Hu. unfold encode.
  apply comprehension_total, Forall_forall. intros sen _.
  apply comprehension_total, Forall_forall. intros tok _.
  by apply encode_token_unknown.
Qed.

Lemma encode_chars_unknown voc seqs :
  is_Some (unknown_idx voc) →
  ∃ chars, encode_chars voc seqs = Ok chars ∧ length chars = length seqs.
Proof.
  intros Hu. eexists. split.
  - unfold encode_chars.
    apply comprehension_total, Forall_forall. intros sen _.
    apply comprehension_total, Forall_forall. intros word _.
    apply comprehension_total, Forall_forall. intros c _.
    by apply encode_token_unknown.
  - by rewrite length_fmap.
Qed.

Lemma token_id_in_range (self : SequenceLabeler T) tok :
  predict_ready self → token_id (word_voc self) tok < table_rows self.
Proof.
  intros (_ & [u Hu] & _ & _ & Hstoi & Hunk & _).
  unfold token_id, encode_token.
  destruct (stoi (word_voc self) !! tok) as [i|] eqn:Hi.
  - by eapply Hstoi.
  - rewrite Hu. by apply Hunk.
Qed.

Lemma predict_labels (self : SequenceLabeler T) sentences w :
  lead_slot (batcher self) = true → predict_ready self →
  predict self sentences w
  = Ok (((λ sen : list string, token_label self <$> sen) <$> sentences,
         with_model self (set_training false (model self))), w).
Proof.
  intros Hlead Hready.
  pose proof Hready as (Hsize & Hwu & Hcu & (ph & i & Hph & Hi) & _ & _ & Hpad & Hout & Hitos).
  unfold predict.
  erewrite lift_Ok.
  2:{ apply (comprehension_total _ (λ sen, replicate (length sen) ph)).
      apply Forall_forall. intros sen _.
      by rewrite (getitem_lookup _ _ _ Hph). }
  erewrite lift_Ok; [|by apply encode_unknown].
  erewrite lift_Ok.
  2:{ unfold encode. rewrite comprehension_fmap.
      apply (comprehension_total _ (λ sen : list string, replicate (length sen) i)).
      apply Forall_forall. intros sen _.
      rewrite <- (fmap_replicate (λ _ : string, i) (length sen) ph).
      apply comprehension_total, Forall_forall. intros tok Htok.
      apply elem_of_replicate_inv in Htok as ->. done. }
  destruct (encode_chars_unknown (char_voc self) sentences Hcu) as (chars & Hchars & Hclen).
  erewrite lift_Ok; [|exact Hchars].
  rewrite (predict_on_labels self sentences _ _ _ (n_outputs self)); try done.
  - unfold labels_of. rewrite <- list_fmap_compose. do 3 f_equal.
    apply list_fmap_ext. intros _ sen _. simpl.
    by rewrite <- list_fmap_compose.
  - apply Forall_fmap, Forall_forall. intros sen _.
    apply Forall_fmap, Forall_forall. intros tok _.
    by apply token_id_in_range.
  - apply Forall2_fmap_l, Forall2_same_length_lookup_2; [done|].
    intros k sen sen' Hk Hk'. simplify_eq. simpl. by rewrite length_fmap.
  - by rewrite !length_fmap.
  - by rewrite length_fmap.
Qed.

(** *** Independence of the labels and characters of a batch *)

Lemma predict_batch_words voc sentences (st : SimpleSequenceModel T * list (list string))
    b1 b2 w :
  Xbatch_words b1 = Xbatch_words b2 →
  predict_batch voc sentences st b1 w = predict_batch voc sentences st b2 w.
Proof. intros Hw. unfold predict_batch. destruct st. by rewrite Hw. Qed.

Lemma predict_loop_words voc sentences bs1 bs2 :
  Forall2 (λ b1 b2, Xbatch_words b1 = Xbatch_words b2) bs1 bs2 →
  ∀ (st : SimpleSequenceModel T * list (list string)) w,
    for_eachM (predict_batch voc sentences) st bs1 w
    = for_eachM (predict_batch voc sentences) st bs2 w.
Proof.
  induction 1 as [|b1 b2 bs1 bs2 Hb _ IH]; intros st w; [done|].
  rewrite !for_eachM_cons, (predict_batch_words _ _ _ b1 b2 w Hb).
  destruct (predict_batch voc sentences st b2 w) as [[st' w']|e]; [|done].
  apply IH.
Qed.

Lemma collate_words_only (b : SequenceBatcher) (items1 items2 : list Item) :
  item_words <$> items1 = item_words <$> items2 →
  Xbatch_words (collate b items1) = Xbatch_words (collate b items2).
Proof.
  intros Heq. unfold collate. cbn [Xbatch_words].
  rewrite !(list_fmap_compose item_words length), Heq.
  set (width := max_list (length <$> (item_words <$> items2))).
  transitivity (pad_to (word_pad b) (lead_width b) width <$> (item_words <$> items1)).
  - by rewrite <- list_fmap_compose.
  - rewrite Heq. by rewrite <- list_fmap_compose.
Qed.

(** *** The model is only read *)

Lemma predict_batch_model voc sentences (st st' : SimpleSequenceModel T * list (list string))
    b w w' :
  predict_batch voc sentences st b w = Ok (st', w') → st'.1 = st.1.
Proof.
  destruct st as [m out]. unfold predict_batch, mbind, M_bind, bindM, lift.
  destruct (forward m (Xbatch_words b)); [|done].
  destruct (argmax_dim2 a); [|done].
  destruct (for_each (predict_sentence voc sentences) out a0); [|done].
  by intros [= <- <-].
Qed.

Lemma validate_batch_model voc (st st' : SimpleSequenceModel T * Stats) b w w' :
  validate_batch voc st b w = Ok (st', w') → st'.1 = st.1.
Proof.
  destruct st as [m stats0]. unfold validate_batch, mbind, M_bind, bindM, lift, emit.
  destruct (forward m (Xbatch_words b)); [|done].
  destruct (argmax_dim2 a); [|done].
  destruct (evaluate_iob (Xbatch_words b) a0 (Ybatch b) voc stats0); [|done].
  by intros [= <- <-].
Qed.

Lemma validate_model voc (loader : DataLoader T) (m m' : SimpleSequenceModel T)
    stats' w w' :
  validate voc loader m w = Ok ((m', stats'), w') → m' = set_training false m.
Proof.
  unfold validate. unfold mbind, M_bind, bindM.
  destruct (DataLoader_iter loader w) as [[batches w1]|e]; [|done].
  intros Hrun.
  apply (for_eachM_invariant (λ st, st.1 = set_training false m)) in Hrun; try done.
  intros s a w2 s' w2' Hb Hs. apply validate_batch_model in Hb. congruence.
Qed.

Lemma predict_on_model (self self' : SequenceLabeler T) sentences Xwords Y Xchars
    out w w' :
  predict_on self sentences Xwords Y Xchars w = Ok ((out, self'), w') →
  self' = with_model self (set_training false (model self)).
Proof.
  unfold predict_on. unfold mbind, M_bind, bindM, lift.
  destruct (DataLoader_new _ _ _ _) as [loader|e]; [|done].
  destruct (DataLoader_iter loader w) as [[batches w1]|e]; [|done].
  destruct (for_eachM _ _ batches w1) as [[[m out'] w2]|e] eqn:Hrun; [|done].
  apply (for_eachM_invariant (λ st, st.1 = set_training false (model self))) in Hrun;
    try done.
  - simpl in Hrun. subst m. by intros [= <- <- <-].
  - intros s a w3 s' w3' Hb Hs. apply predict_batch_model in Hb. congruence.
Qed.

Lemma predict_model (self self' : SequenceLabeler T) sentences out w w' :
  predict self sentences w = Ok ((out, self'), w') →
  self' = with_model self (set_training false (model self)).
Proof.
  unfold predict. unfold mbind at 1 2 3 4, M_bind, bindM, lift.
  destruct (comprehension _ sentences); [|done].
  destruct (encode (word_voc self) sentences); [|done].
  destruct (encode (label_voc self) a); [|done].
  destruct (encode_chars (char_voc self) sentences); [|done].
  apply predict_on_model.
Qed.

End predict_facts.

(** C1: when the batcher gives every row a leading pad slot, [predict]
    returns, for every list of tokenized sentences, one label sequence per
    sentence, in the order of the sentences, each as long as its sentence;
    the label at a position is the label of the token standing there. *)
Theorem predict_one_label_per_token {T : Type} `{NerUtilOps T}
    (self : SequenceLabeler T) (sentences : list (list string)) (w : World T) :
  lead_slot (batcher self) = true →
  predict_ready self →
  ∃ out self',
    predict self sentences w = Ok ((out, self'), w) ∧
    length out = length sentences ∧
    Forall2 (λ labels sen,
               length labels = length sen ∧ labels = token_label self <$> sen)
            out sentences.
Proof.
  intros Hlead Hready. eexists _, _.
  split; [by apply predict_labels|].
  split; [by rewrite length_fmap|].
  apply Forall2_fmap_l, Forall2_same_length_lookup_2; [done|].
  intros k sen sen' Hk Hk'. simplify_eq. simpl. by rewrite length_fmap.
Qed.

Lemma demo_trained_ready : predict_ready Demo.trained.
Proof.
  unfold predict_ready, output_ready, table_rows, n_outputs.
  split. { vm_compute; lia. }
  split. { vm_compute; eexists; reflexivity. }
  split. { vm_compute; eexists; reflexivity. }
  split. { exists "<pad>", 0; by vm_compute. }
  split. { apply map_Forall_to_list. vm_compute. repeat constructor. }
  split. { intros u Hu; vm_compute in Hu; injection Hu as <-; vm_compute; lia. }
  split. { vm_compute; lia. }
  split.
  - split. { vm_compute; reflexivity. }
    split. { vm_compute; reflexivity. }
    vm_compute; lia.
  - vm_compute; lia.
Defined.

Lemma predict_one_label_per_token_witness :
  ∃ out self',
    predict Demo.trained Demo.new_sentences Demo.world0 = Ok ((out, self'), Demo.world0) ∧
    length out = length Demo.new_sentences ∧
    Forall2 (λ labels sen,
               length labels = length sen ∧ labels = token_label Demo.trained <$> sen)
            out Demo.new_sentences.
Proof.
  apply (predict_one_label_per_token Demo.trained Demo.new_sentences Demo.world0).
  - reflexivity.
  - exact demo_trained_ready.
Defined.

(** Without the leading pad slot the longest sentence of a batch loses its
    last label: dropping the first predicted position leaves one position
    too few. *)
Example predict_without_lead_slot_is_short :
  (λ r : list (list string) * SequenceLabeler Z * World Z, length <$> r.1.1)
    <$> predict (Demo.without_lead_slot Demo.trained) [["Jane"; "lives"]] Demo.world0
  = Ok [1].
Proof. vm_compute. reflexivity. Qed.

(** C10: the labels [predict] returns do not depend on the placeholder
    labels or on the character ids of the batches: for the same encoded
    words, any two label fields and any two character fields (each with one
    entry per sentence) give the same result; and the label ids decoded for
    a batch, in [predict] as in validation, are those of any batch with the
    same word ids. *)
Theorem predict_ignores_labels_and_characters {T : Type} `{NerUtilOps T}
    (self : SequenceLabeler T) (sentences : list (list string))
    (Xwords Y1 Y2 : list (list nat)) (Xchars1 Xchars2 : list (list (list nat)))
    (w : World T) :
  length Y1 = length Xwords → length Y2 = length Xwords →
  length Xchars1 = length Xwords → length Xchars2 = length Xwords →
  predict_on self sentences Xwords Y1 Xchars1 w
  = predict_on self sentences Xwords Y2 Xchars2 w ∧
  (∀ m b1 b2, Xbatch_words b1 = Xbatch_words b2 →
     forward m (Xbatch_words b1) ≫= argmax_dim2
     = forward m (Xbatch_words b2) ≫= argmax_dim2).
Proof.
  intros HY1 HY2 HC1 HC2. split; [|by intros m b1 b2 ->].
  unfold predict_on, DataLoader_new.
  destruct (decide (batch_size (params self) = 0)) as [?|Hsize]; [done|].
  rewrite !(lift_Ok _ _ _ _ eq_refl).
  set (ds1 := {| ds_words := Xwords; ds_labels := Y1; ds_chars := Some Xchars1;
                 ds_word_dropout_prob := None; ds_word_dropout_id := None |}).
  set (ds2 := {| ds_words := Xwords; ds_labels := Y2; ds_chars := Some Xchars2;
                 ds_word_dropout_prob := None; ds_word_dropout_id := None |}).
  assert (plain_dataset ds1) as Hp1 by done.
  assert (plain_dataset ds2) as Hp2 by done.
  set (dl1 := {| dl_dataset := ds1; dl_batch_size := batch_size (params self);
                 dl_shuffle := false; dl_collate_fn := batcher self |}).
  set (dl2 := {| dl_dataset := ds2; dl_batch_size := batch_size (params self);
                 dl_shuffle := false; dl_collate_fn := batcher self |}).
  rewrite (bindM_Ok _ _ w _ w
             (DataLoader_iter_plain dl1 w Hp1 eq_refl ltac:(simpl; lia))).
  rewrite (bindM_Ok _ _ w _ w
             (DataLoader_iter_plain dl2 w Hp2 eq_refl ltac:(simpl; lia))).
  unfold mbind, M_bind, bindM.
  rewrite (predict_loop_words (label_voc self) sentences
             ((λ idxs, collate (dl_collate_fn dl1) (item_of (dl_dataset dl1) <$> idxs))
                <$> batched (dl_batch_size dl1) (seq 0 (length (ds_words (dl_dataset dl1)))))
             ((λ idxs, collate (dl_collate_fn dl2) (item_of (dl_dataset dl2) <$> idxs))
                <$> batched (dl_batch_size dl2) (seq 0 (length (ds_words (dl_dataset dl2))))));
    [done|].
  apply Forall2_fmap, Forall_Forall2_diag, Forall_forall. intros idxs _.
  apply collate_words_only. by rewrite <- !list_fmap_compose.
Qed.

Lemma predict_ignores_labels_and_characters_witness :
  predict_on Demo.trained [["Jane"; "lives"]; ["Ekeus"]] [[11; 12]; [5]]
    [[0; 0]; [0]] [[[1]; [2]]; [[3]]] Demo.world0
  = predict_on Demo.trained [["Jane"; "lives"]; ["Ekeus"]] [[11; 12]; [5]]
      [[3; 4]; [2]] [[[7; 7; 7]; [9]]; [[]]] Demo.world0.
Proof.
  apply (predict_ignores_labels_and_characters Demo.trained
           [["Jane"; "lives"]; ["Ekeus"]] [[11; 12]; [5]]
           [[0; 0]; [0]] [[3; 4]; [2]] [[[1]; [2]]; [[3]]] [[[7; 7; 7]; [9]]; [[]]]
           Demo.world0); reflexivity.
Defined.


(** C5: neither the validation phase of [train] nor [predict] changes a
    parameter tensor: after a validation pass, and after a call of
    [predict], the embedding table and the weights and biases of the output
    unit are what they were before (only the training flag is switched
    off). *)
Theorem validation_and_predict_keep_parameters {T : Type} `{NerUtilOps T}
    (voc : Vocabulary) (val_loader : DataLoader T) (m m' : SimpleSequenceModel T)
    (stats' : Stats) (w w' : World T)
    (self self' : SequenceLabeler T) (sentences : list (list string))
    (out : list (list string)) (wp wp' : World T) :
  validate voc val_loader m w = Ok ((m', stats'), w') →
  predict self sentences wp = Ok ((out, self'), wp') →
  (parameters m' = parameters m ∧ m' = set_training false m) ∧
  (parameters (model self') = parameters (model self) ∧
   self' = with_model self (set_training false (model self))).
Proof.
  intros Hval Hpred.
  apply validate_model in Hval as ->.
  apply predict_model in Hpred as ->.
  done.
Qed.

Lemma validation_and_predict_keep_parameters_witness :
  (parameters Demo.validated.1.1 = parameters (model Demo.trained) ∧
   Demo.validated.1.1 = set_training false (model Demo.trained)) ∧
  (parameters (model Demo.predicted.1.2) = parameters (model Demo.trained) ∧
   Demo.predicted.1.2
   = with_model Demo.trained (set_training false (model Demo.trained))).
Proof.
  apply (validation_and_predict_keep_parameters
           (label_voc Demo.trained) Demo.val_loader (model Demo.trained)
           Demo.validated.1.1 Demo.validated.1.2 Demo.world0 Demo.validated.2
           Demo.trained Demo.predicted.1.2 Demo.new_sentences
           Demo.predicted.1.1 Demo.world0 Demo.predicted.2).
  - vm_compute. reflexivity.
  - vm_compute. reflexivity.
Defined.

(** ** Padding positions in the loss and in the evaluation *)

Section padding_facts.
Context {T : Type} `{Backend T}.
Import PyFacts.

(** Two tensors of the same (sentences, words) shape. *)
Definition same_shape {A B : Type} (X : list (list A)) (Y : list (list B)) : Prop :=
  Forall2 (λ x y, length x = length y) X Y.

(** A row without the positions whose label is the pad id, a tensor
    without them, and a batch without them. *)
Definition strip_row {A : Type} (pad : nat) (row : list A) (ys : list nat) : list A :=
  (filter (λ xy : A * nat, xy.2 ≠ pad) (zip row ys)).*1.

Definition strip_rows {A : Type} (pad : nat) (X : list (list A)) (Y : list (list nat))
  : list (list A) :=
  zip_with (strip_row pad) X Y.

Definition strip_labels (pad : nat) (Y : list (list nat)) : list (list nat) :=
  filter (λ y, y ≠ pad) <$> Y.

Definition strip_batch (pad : nat) (b : Batch) : Batch :=
  {| Xbatch_words := strip_rows pad (Xbatch_words b) (Ybatch b);
     Ybatch := strip_labels pad (Ybatch b);
     Xbatch_chars := (λ chars, strip_rows pad chars (Ybatch b)) <$> Xbatch_chars b |}.

Lemma filter_zip_snd {A} (pad : nat) (row : list A) : ∀ ys,
  length row = length ys →
  (filter (λ xy : A * nat, xy.2 ≠ pad) (zip row ys)).*2 = filter (λ y, y ≠ pad) ys.
Proof.
  induction row as [|x row IH]; intros [|y ys] Hlen; simplify_eq/=; [done|].
  rewrite !filter_cons. simpl.
  destruct (decide (y ≠ pad)); csimpl; by rewrite IH.
Qed.

Lemma zip_strip_row {A} (pad : nat) (row : list A) ys :
  length row = length ys →
  zip (strip_row pad row ys) (filter (λ y, y ≠ pad) ys)
  = filter (λ xy : A * nat, xy.2 ≠ pad) (zip row ys).
Proof.
  intros Hlen. unfold strip_row. rewrite <- (filter_zip_snd pad row ys Hlen).
  apply zip_fst_snd.
Qed.

Lemma length_strip_row {A} (pad : nat) (row : list A) ys :
  length row = length ys →
  length (strip_row pad row ys) = length (filter (λ y, y ≠ pad) ys).
Proof.
  intros Hlen. unfold strip_row.
  by rewrite <- (filter_zip_snd pad row ys Hlen), !length_fmap.
Qed.

Lemma strip_row_fmap {A B} (f : A → B) (pad : nat) (row : list A) : ∀ ys,
  strip_row pad (f <$> row) ys = f <$> strip_row pad row ys.
Proof.
  unfold strip_row.
  induction row as [|x row IH]; intros [|y ys]; simpl; try done.
  rewrite !filter_cons. simpl.
  destruct (decide (y ≠ pad)); csimpl; by rewrite IH.
Qed.

Lemma strip_rows_fmap {A B} (f : A → B) (pad : nat) (X : list (list A)) : ∀ Y,
  strip_rows pad ((λ row : list A, f <$> row) <$> X) Y
  = (λ row : list A, f <$> row) <$> strip_rows pad X Y.
Proof.
  unfold strip_rows.
  induction X as [|row X IH]; intros [|ys Y]; csimpl; try done.
  by rewrite IH, strip_row_fmap.
Qed.

Lemma strip_row_Forall {A} (P : A → Prop) (pad : nat) (row : list A) ys :
  Forall P row → Forall P (strip_row pad row ys).
Proof.
  intros Hrow. unfold strip_row. apply Forall_fmap, Forall_forall.
  intros [x y] Hin. apply list_elem_of_filter in Hin as [_ Hin].
  apply elem_of_zip_l in Hin. simpl. by eapply Forall_forall in Hrow.
Qed.

Lemma strip_rows_Forall {A} (P : A → Prop) (pad : nat) (X : list (list A)) : ∀ Y,
  Forall (Forall P) X → Forall (Forall P) (strip_rows pad X Y).
Proof.
  unfold strip_rows. intros Y HX. revert Y.
  induction HX as [|row X Hrow _ IH]; intros [|ys Y]; csimpl; constructor.
  - by apply strip_row_Forall.
  - apply IH.
Qed.

Lemma same_shape_fmap_l {A B C} (f : A → B) (X : list (list A)) (Y : list (list C)) :
  same_shape X Y → same_shape ((λ row : list A, f <$> row) <$> X) Y.
Proof.
  unfold same_shape. intros Hsame. apply Forall2_fmap_l.
  eapply Forall2_impl; [exact Hsame|]. intros x y Hlen. simpl.
  by rewrite length_fmap.
Qed.

Lemma same_shape_strip {A} (pad : nat) (X : list (list A)) Y :
  same_shape X Y → same_shape (strip_rows pad X Y) (strip_labels pad Y).
Proof.
  unfold same_shape, strip_rows, strip_labels.
  induction 1 as [|row ys X Y Hlen _ IH]; csimpl; constructor; [|done].
  by apply length_strip_row.
Qed.

Lemma same_shape_concat_length {A B} (X : list (list A)) (Y : list (list B)) :
  same_shape X Y → length (concat X) = length (concat Y).
Proof.
  induction 1 as [|x y X Y Hlen _ IH]; simpl; [done|].
  rewrite !length_app. lia.
Qed.

Lemma zip_concat {A B} (X : list (list A)) (Y : list (list B)) :
  same_shape X Y → zip (concat X) (concat Y) = concat (zip_with zip X Y).
Proof.
  induction 1 as [|x y X Y Hlen _ IH]; simpl; [done|].
  by rewrite zip_with_app, IH.
Qed.

Lemma zip_concat_strip {A} (pad : nat) (X : list (list A)) Y :
  same_shape X Y →
  zip (concat (strip_rows pad X Y)) (concat (strip_labels pad Y))
  = filter (λ xy : A * nat, xy.2 ≠ pad) (zip (concat X) (concat Y)).
Proof.
  intros Hsame. rewrite zip_concat by by apply same_shape_strip.
  rewrite zip_concat by done. unfold strip_rows, strip_labels.
  induction Hsame as [|row ys X Y Hlen _ IH]; csimpl; [done|].
  by rewrite filter_app, IH, zip_strip_row.
Qed.

(** *** The loss *)

Lemma loss_term_filter (pad : nat) (l : list (list T * nat)) : ∀ acc,
  for_each (loss_term nll pad) acc (filter (λ xy, xy.2 ≠ pad) l)
  = for_each (loss_term nll pad) acc l.
Proof.
  induction l as [|[row y] l IH]; intros [sum cnt]; [done|].
  rewrite filter_cons. cbn [snd].
  destruct (decide (y ≠ pad)) as [Hy|Hy].
  - rewrite !for_each_cons.
    destruct (loss_term nll pad (sum, cnt) (row, y)); simpl; [apply IH|done].
  - apply dec_stable in Hy as ->. rewrite for_each_cons.
    unfold loss_term at 2. rewrite decide_True by done. simpl. apply IH.
Qed.

Lemma cross_entropy_strip (lf : CrossEntropyLoss) (S : list (list (list T))) Y :
  same_shape S Y →
  cross_entropy nll lf (concat (strip_rows (ignore_index lf) S Y))
                (concat (strip_labels (ignore_index lf) Y))
  = cross_entropy nll lf (concat S) (concat Y).
Proof.
  intros Hsame. unfold cross_entropy.
  rewrite !decide_True.
  - by rewrite zip_concat_strip, loss_term_filter.
  - by apply same_shape_concat_length.
  - by apply same_shape_concat_length, same_shape_strip.
Qed.

(** *** Reshaping scores whose vectors all have [n] entries *)

Lemma batched_fuel_rows {A} (n : nat) (rows : list (list A)) : ∀ fuel,
  0 < n → Forall (λ v, length v = n) rows → length rows ≤ fuel →
  batched_fuel fuel n (concat rows) = rows.
Proof.
  induction rows as [|v rows IH]; intros fuel Hn Hrows Hfuel.
  - by destruct fuel.
  - apply Forall_cons in Hrows as [Hv Hrows].
    destruct fuel as [|fuel]; [simpl in Hfuel; lia|].
    simpl. destruct (v ++ concat rows) as [|a l] eqn:Heq.
    { destruct v; [simpl in Hv; lia|done]. }
    rewrite <- Heq, take_app_length', drop_app_length' by done.
    rewrite IH; [done|done|done|simpl in Hfuel; lia].
Qed.

Lemma length_concat_rows {A} (n : nat) (rows : list (list A)) :
  Forall (λ v, length v = n) rows → length (concat rows) = n * length rows.
Proof.
  induction 1 as [|v rows Hv _ IH]; simpl; [lia|].
  rewrite length_app. lia.
Qed.

Lemma view_2d_rows (n : nat) (S : list (list (list T))) :
  0 < n → Forall (Forall (λ v, length v = n)) S → view_2d n S = Ok (concat S).
Proof.
  intros Hn HS. unfold view_2d.
  assert (Forall (λ v, length v = n) (concat S)) as Hrows.
  { induction HS; simpl; [constructor|]. by apply Forall_app_2. }
  rewrite decide_True.
  - f_equal. unfold batched. apply batched_fuel_rows; [done|done|].
    rewrite (length_concat_rows n (concat S)) by done. nia.
  - split; [lia|]. rewrite (length_concat_rows n (concat S)) by done.
    rewrite Nat.mul_comm. by apply Nat.Div0.mod_mul.
Qed.

Lemma scores_vectors (m : SimpleSequenceModel T) n_labels (words : list (list nat)) :
  output_ready m n_labels →
  Forall (Forall (λ v, length v = n_labels))
         ((λ row : list nat, scores_of m <$> row) <$> words).
Proof.
  intros (Hw & Hb & _). apply Forall_fmap, Forall_forall. intros row _.
  apply Forall_fmap, Forall_forall. intros w _. by apply length_linear1.
Qed.

Lemma batch_loss_scores (lf : CrossEntropyLoss) n_labels (b : Batch)
    (m : SimpleSequenceModel T) :
  output_ready m n_labels → ids_in_range m (Xbatch_words b) →
  batch_loss lf n_labels b m
  = cross_entropy nll lf
      (concat ((λ row : list nat, scores_of m <$> row) <$> Xbatch_words b))
      (concat (Ybatch b)).
Proof.
  intros Hready Hin. unfold batch_loss.
  rewrite (forward_in_range m _ Hin). cbn.
  rewrite view_2d_rows; [done|by destruct Hready as (_ & _ & ?)|].
  by apply scores_vectors.
Qed.

(** *** The evaluation *)

Lemma evaluate_row_strip (voc : Vocabulary) (st : Stats) (p g : list nat) :
  length p = length g →
  evaluate_row voc st (strip_row (pad_idx voc) p g, filter (λ y, y ≠ pad_idx voc) g)
  = evaluate_row voc st (p, g).
Proof.
  intros Hlen. unfold evaluate_row, real_positions. cbn [fst snd].
  rewrite zip_strip_row by done.
  by rewrite (list_filter_filter_l _ _ _) by done.
Qed.

Lemma evaluate_iob_strip (voc : Vocabulary) (W W' P Y : list (list nat)) :
  same_shape P Y → ∀ st,
  evaluate_iob W' (strip_rows (pad_idx voc) P Y) (strip_labels (pad_idx voc) Y) voc st
  = evaluate_iob W P Y voc st.
Proof.
  unfold evaluate_iob, strip_rows, strip_labels.
  induction 1 as [|p g P Y Hlen _ IH]; intros st; csimpl; [done|].
  rewrite evaluate_row_strip by done.
  destruct (evaluate_row voc st (p, g)); simpl; [apply IH|done].
Qed.

End padding_facts.

(** C2: positions holding the padding label id contribute nothing to the
    loss of a training step and never enter the evaluation counts: for a
    batch whose word ids have embedding rows, the loss [train] computes is
    the loss of the same batch with the padded positions removed, and the
    statistics the evaluator accumulates from any predicted ids are those it
    accumulates when the padded positions are removed from the predicted and
    the gold labels. *)
Theorem padding_positions_are_ignored {T : Type} `{Backend T}
    (label_voc : Vocabulary) (m : SimpleSequenceModel T) (n_labels : nat)
    (b : Batch) (predicted : list (list nat)) (st : Stats) :
  output_ready m n_labels →
  ids_in_range m (Xbatch_words b) →
  same_shape (Xbatch_words b) (Ybatch b) →
  same_shape predicted (Ybatch b) →
  batch_loss {| ignore_index := pad_idx label_voc |} n_labels b m
  = batch_loss {| ignore_index := pad_idx label_voc |} n_labels
               (strip_batch (pad_idx label_voc) b) m ∧
  evaluate_iob (Xbatch_words b) predicted (Ybatch b) label_voc st
  = evaluate_iob (Xbatch_words (strip_batch (pad_idx label_voc) b))
                 (strip_rows (pad_idx label_voc) predicted (Ybatch b))
                 (Ybatch (strip_batch (pad_idx label_voc) b)) label_voc st.
Proof.
  intros Hready Hin Hwords Hpred. split.
  - rewrite !batch_loss_scores; try done.
    + cbn [strip_batch Xbatch_words Ybatch].
      rewrite <- strip_rows_fmap.
      symmetry. apply (cross_entropy_strip {| ignore_index := pad_idx label_voc |}).
      by apply same_shape_fmap_l.
    + by apply strip_rows_Forall.
  - symmetry. by apply evaluate_iob_strip.
Qed.

Lemma padding_positions_are_ignored_witness :
  batch_loss {| ignore_index := pad_idx (label_voc Demo.trained) |} 3
    {| Xbatch_words := [[0; 1; 2; 3]; [0; 2; 0; 0]];
       Ybatch := [[0; 1; 2; 1]; [0; 2; 0; 0]]; Xbatch_chars := None |}
    Demo.demo_model
  = batch_loss {| ignore_index := pad_idx (label_voc Demo.trained) |} 3
      (strip_batch (pad_idx (label_voc Demo.trained))
         {| Xbatch_words := [[0; 1; 2; 3]; [0; 2; 0; 0]];
            Ybatch := [[0; 1; 2; 1]; [0; 2; 0; 0]]; Xbatch_chars := None |})
      Demo.demo_model ∧
  evaluate_iob [[0; 1; 2; 3]; [0; 2; 0; 0]] [[1; 1; 2; 0]; [2; 2; 1; 1]]
    [[0; 1; 2; 1]; [0; 2; 0; 0]] (label_voc Demo.trained) ∅
  = evaluate_iob
      (Xbatch_words
         (strip_batch (pad_idx (label_voc Demo.trained))
            {| Xbatch_words := [[0; 1; 2; 3]; [0; 2; 0; 0]];
               Ybatch := [[0; 1; 2; 1]; [0; 2; 0; 0]]; Xbatch_chars := None |}))
      (strip_rows (pad_idx (label_voc Demo.trained)) [[1; 1; 2; 0]; [2; 2; 1; 1]]
         [[0; 1; 2; 1]; [0; 2; 0; 0]])
      (Ybatch
         (strip_batch (pad_idx (label_voc Demo.trained))
            {| Xbatch_words := [[0; 1; 2; 3]; [0; 2; 0; 0]];
               Ybatch := [[0; 1; 2; 1]; [0; 2; 0; 0]]; Xbatch_chars := None |}))
      (label_voc Demo.trained) ∅.
Proof.
  apply (padding_positions_are_ignored (label_voc Demo.trained) Demo.demo_model 3
           {| Xbatch_words := [[0; 1; 2; 3]; [0; 2; 0; 0]];
              Ybatch := [[0; 1; 2; 1]; [0; 2; 0; 0]]; Xbatch_chars := None |}
           [[1; 1; 2; 0]; [2; 2; 1; 1]] ∅).
  - unfold output_ready. simpl. lia.
  - unfold ids_in_range. simpl. repeat constructor.
  - unfold same_shape. simpl. repeat constructor.
  - unfold same_shape. simpl. repeat constructor.
Defined.

(** ** The epochs of [train] *)

Section loader_any.
Context {T : Type} `{Backend T}.
Import PyFacts.

(** What the epoch loop assumes of PyTorch: [randperm] gives a permutation
    of the indices, and an optimizer update keeps the shape of every
    parameter tensor. *)
Definition randperm_permutes : Prop :=
  ∀ n (g : Rng), (randperm n g).1 ≡ₚ seq 0 n.

Definition shape (ps : Parameters T) : nat * nat * nat :=
  (length ps.1.1, length ps.1.2, length ps.2).

Definition Adam_keeps_shape : Prop :=
  ∀ (o : Adam) ps grads, shape (Adam_step o ps grads).2 = shape ps.

(** An example, a batch and a dataset whose word ids have a row in a table
    of [rows] rows and whose labels are classes below [n_labels] (or, in a
    batch, the pad id), with as many labels as words. *)
Definition item_ready (rows n_labels : nat) (it : Item) : Prop :=
  length (item_words it) = length (item_labels it) ∧
  Forall (λ w, w < rows) (item_words it) ∧
  Forall (λ y, y < n_labels) (item_labels it).

Definition batch_ready (rows n_labels pad : nat) (b : Batch) : Prop :=
  Forall (Forall (λ w, w < rows)) (Xbatch_words b) ∧
  same_shape (Xbatch_words b) (Ybatch b) ∧
  Forall (Forall (λ y, y = pad ∨ y < n_labels)) (Ybatch b).

Definition dataset_ready (rows n_labels : nat) (ds : SequenceDataset T) : Prop :=
  same_shape (ds_words ds) (ds_labels ds) ∧
  match ds_chars ds with
  | Some chars => length chars = length (ds_words ds)
  | None => True
  end ∧
  Forall (Forall (λ w, w < rows)) (ds_words ds) ∧
  (∀ u, ds_word_dropout_id ds = Some u → u < rows) ∧
  Forall (Forall (λ y, y < n_labels)) (ds_labels ds).

Definition loader_ready (rows n_labels pad : nat) (dl : DataLoader T) : Prop :=
  0 < dl_batch_size dl ∧
  dataset_ready rows n_labels (dl_dataset dl) ∧
  word_pad (dl_collate_fn dl) < rows ∧
  label_pad (dl_collate_fn dl) = pad.

Lemma word_dropout_ready rows prob unk (ws : list nat) : ∀ (g : PyRng),
  unk < rows → Forall (λ w, w < rows) ws →
  length (word_dropout prob unk ws g).1 = length ws ∧
  Forall (λ w, w < rows) (word_dropout prob unk ws g).1.
Proof.
  induction ws as [|w ws IH]; intros g Hunk Hws; simpl; [done|].
  apply Forall_cons in Hws as [Hw Hws].
  destruct (random_random g) as [u g1].
  specialize (IH g1 Hunk Hws).
  destruct (word_dropout prob unk ws g1) as [rest g2]. simpl in *.
  destruct IH as [IHlen IHall]. split; [lia|].
  constructor; [by destruct (Tltb u prob)|done].
Qed.

Lemma dataset_getitem_ready rows n_labels (ds : SequenceDataset T) idx (w : World T) :
  dataset_ready rows n_labels ds → idx < length (ds_words ds) →
  ∃ it w', with_py_rng (dataset_getitem ds idx) w = Ok (it, w') ∧
           item_ready rows n_labels it ∧ trace w' = trace w ∧
           torch_rng w' = torch_rng w ∧ ticks w' = ticks w.
Proof.
  intros (Hsame & Hch & Hwords & Hunk & Hlabels) Hidx.
  destruct (lookup_lt_is_Some_2 (ds_words ds) idx Hidx) as [ws Hws].
  destruct (Forall2_lookup_l _ _ _ _ _ Hsame Hws) as (ys & Hys & Hlen).
  pose proof (Forall_lookup_1 _ _ _ _ Hwords Hws) as Hwsr.
  pose proof (Forall_lookup_1 _ _ _ _ Hlabels Hys) as Hysr.
  unfold with_py_rng, dataset_getitem.
  rewrite (getitem_lookup _ _ _ Hws), (getitem_lookup _ _ _ Hys). cbn.
  assert (∃ cs, match ds_chars ds with
                | Some chars => getitem chars idx ≫= λ c, Ok (Some c)
                | None => Ok None
                end = Ok cs) as [cs ->].
  { destruct (ds_chars ds) as [chars|]; [|by eexists].
    destruct (lookup_lt_is_Some_2 chars idx ltac:(apply Forall2_length in Hsame; lia))
      as [c Hc].
    rewrite (getitem_lookup _ _ _ Hc). by eexists. }
  cbn.
  destruct (ds_word_dropout_prob ds) as [prob|]; [destruct (ds_word_dropout_id ds) as [unk|]|].
  - pose proof (word_dropout_ready rows prob unk ws (py_rng w) (Hunk unk eq_refl) Hwsr)
      as [Hdl Hdr].
    destruct (word_dropout prob unk ws (py_rng w)) as [ws' g']. simpl in *.
    eexists _, _. split; [done|]. repeat split; simpl; try done. lia.
  - eexists _, _. split; [done|]. repeat split; simpl; done.
  - eexists _, _. split; [done|]. repeat split; simpl; done.
Qed.

(** A loop that collects results, when every step succeeds and leaves the
    trace, torch's generator and the clock alone. *)
Definition calm (w w' : World T) : Prop :=
  trace w' = trace w ∧ torch_rng w' = torch_rng w ∧ ticks w' = ticks w.

Lemma collectM_calm {A B} (P : B → Prop) (f : A → M T B) l :
  (∀ a w, a ∈ l → ∃ b w', f a w = Ok (b, w') ∧ P b ∧ calm w w') →
  ∀ w, ∃ bs w', collectM f l w = Ok (bs, w') ∧ Forall P bs ∧
                length bs = length l ∧ calm w w'.
Proof.
  induction l as [|a l IH]; intros Hf w.
  - eexists [], w. by repeat split.
  - destruct (Hf a w) as (b & w1 & Hb & HP & Hc1); [by left|].
    destruct (IH (λ a' w' Hin, Hf a' w' (list_elem_of_further _ _ _ Hin)) w1)
      as (bs & w2 & Hbs & HPs & Hlen & Hc2).
    exists (b :: bs), w2. simpl. unfold bindM. rewrite Hb, Hbs.
    split; [done|]. split; [by constructor|]. split; [simpl; lia|].
    destruct Hc1 as (? & ? & ?), Hc2 as (? & ? & ?). repeat split; congruence.
Qed.

(** *** Collating examples *)

Lemma length_pad_to {A} (pad : A) lead width (l : list A) :
  length l ≤ width → length (pad_to pad lead width l) = lead + width.
Proof.
  intros Hle. unfold pad_to. rewrite !length_app, !length_replicate. lia.
Qed.

Lemma max_list_fmap_le {A} (f : A → nat) (x : A) (l : list A) :
  x ∈ l → f x ≤ max_list (f <$> l).
Proof. intros Hin. apply max_list_elem_of_le, list_elem_of_fmap. eauto. Qed.

Lemma collate_ready rows n_labels (b : SequenceBatcher) (items : list Item) :
  word_pad b < rows →
  Forall (item_ready rows n_labels) items →
  batch_ready rows n_labels (label_pad b) (collate b items).
Proof.
  intros Hpad Hitems. unfold batch_ready, collate. cbn [Xbatch_words Ybatch].
  assert (length ∘ item_words <$> items = length ∘ item_labels <$> items) as Hmax.
  { apply list_fmap_ext. intros i it Hit. simpl.
    apply list_elem_of_lookup_2 in Hit.
    by destruct (proj1 (Forall_forall _ _) Hitems it Hit) as (-> & _). }
  rewrite <- Hmax.
  set (width := max_list (length ∘ item_words <$> items)).
  assert (∀ it, it ∈ items → length (item_words it) ≤ width) as Hle.
  { intros it Hit. by apply (max_list_fmap_le (length ∘ item_words)). }
  split; [|split].
  - apply Forall_fmap, Forall_forall. intros it Hit. simpl.
    destruct (proj1 (Forall_forall _ _) Hitems it Hit) as (_ & Hw & _).
    unfold pad_to. repeat apply Forall_app_2; try done; by apply Forall_replicate.
  - unfold same_shape. apply Forall2_fmap, Forall_Forall2_diag, Forall_forall.
    intros it Hit. simpl.
    destruct (proj1 (Forall_forall _ _) Hitems it Hit) as (Hlen & _ & _).
    pose proof (Hle it Hit).
    rewrite !length_pad_to; [done|lia|lia].
  - apply Forall_fmap, Forall_forall. intros it Hit. simpl.
    destruct (proj1 (Forall_forall _ _) Hitems it Hit) as (_ & _ & Hy).
    unfold pad_to. repeat apply Forall_app_2.
    + apply Forall_replicate. by left.
    + eapply Forall_impl; [exact Hy|]. intros y Hlt. by right.
    + apply Forall_replicate. by left.
Qed.

(** *** The number of batches *)

Lemma length_batched_fuel {A} (l : list A) : ∀ fuel size,
  0 < size → length l ≤ fuel →
  length (batched_fuel fuel size l) = (length l + size - 1) / size.
Proof.
  induction l as [l IH] using (induction_ltof1 _ length).
  unfold ltof in IH. intros fuel size Hsize Hfuel.
  destruct fuel as [|fuel].
  - destruct l; [|simpl in Hfuel; lia]. simpl.
    symmetry. apply Nat.div_small. lia.
  - destruct l as [|a l'].
    + simpl. symmetry. apply Nat.div_small. lia.
    + cbn [batched_fuel length]. rewrite IH.
      * rewrite length_drop. cbn [length].
        destruct (decide (S (length l') ≤ size)) as [Hle|Hgt].
        -- replace (S (length l') - size) with 0 by lia.
           rewrite (Nat.div_small (0 + size - 1)) by lia.
           apply (Nat.div_unique _ _ 1 (S (length l') - 1)); lia.
        -- replace (S (length l') + size - 1)
             with ((S (length l') - size + size - 1) + 1 * size) by lia.
           rewrite Nat.div_add by lia. lia.
      * rewrite length_drop. simpl. lia.
      * done.
      * rewrite length_drop. simpl in *. lia.
Qed.

Lemma length_batched {A} (l : list A) size :
  0 < size → length (batched size l) = (length l + size - 1) / size.
Proof. intros. by apply length_batched_fuel. Qed.

Lemma fetch_batch_ready rows n_labels pad (dl : DataLoader T) (chunk : list nat)
    (w : World T) :
  loader_ready rows n_labels pad dl →
  Forall (λ idx, idx < length (ds_words (dl_dataset dl))) chunk →
  ∃ b w', fetch_batch dl chunk w = Ok (b, w') ∧
          batch_ready rows n_labels pad b ∧ calm w w'.
Proof.
  intros (Hsize & Hds & Hwpad & Hlpad) Hchunk. unfold fetch_batch.
  assert (∀ idx w0, idx ∈ chunk →
            ∃ it w', with_py_rng (dataset_getitem (dl_dataset dl) idx) w0 = Ok (it, w') ∧
                     item_ready rows n_labels it ∧ calm w0 w') as Hget.
  { intros idx w0 Hidx.
    assert (idx < length (ds_words (dl_dataset dl))) as Hlt
      by by eapply Forall_forall in Hchunk.
    destruct (dataset_getitem_ready rows n_labels (dl_dataset dl) idx w0 Hds Hlt)
      as (it & w1 & ? & ? & ? & ? & ?).
    exists it, w1. split; [done|]. split; [done|]. by unfold calm. }
  destruct (collectM_calm (item_ready rows n_labels) _ chunk Hget w)
    as (items & w1 & Hitems & Hir & _ & Hc).
  rewrite (bindM_Ok _ _ _ _ _ Hitems).
  eexists _, _. split; [done|]. split; [|done].
  rewrite <- Hlpad. by apply collate_ready.
Qed.

Lemma DataLoader_iter_ready rows n_labels pad (dl : DataLoader T) (w : World T) :
  randperm_permutes → loader_ready rows n_labels pad dl →
  ∃ batches w',
    DataLoader_iter dl w = Ok (batches, w') ∧
    Forall (batch_ready rows n_labels pad) batches ∧
    length batches = DataLoader_len dl ∧
    trace w' = trace w ∧ ticks w' = ticks w.
Proof.
  intros Hperm Hready. pose proof Hready as (Hsize & Hds & Hwpad & Hlpad).
  unfold DataLoader_iter.
  set (n := length (ds_words (dl_dataset dl))).
  assert (∃ idxs w1,
            (if dl_shuffle dl then with_torch_rng (randperm n) else ret (seq 0 n)) w
            = Ok (idxs, w1) ∧ idxs ≡ₚ seq 0 n ∧ trace w1 = trace w ∧ ticks w1 = ticks w)
    as (idxs & w1 & Hidxs & Hp & Htr1 & Htk1).
  { destruct (dl_shuffle dl).
    - unfold with_torch_rng. specialize (Hperm n (torch_rng w)).
      destruct (randperm n (torch_rng w)) as [idxs g]. by eexists _, _.
    - by eexists _, _. }
  rewrite (bindM_Ok _ _ _ _ _ Hidxs).
  assert (∀ chunk w0, chunk ∈ batched (dl_batch_size dl) idxs →
            ∃ b w', fetch_batch dl chunk w0 = Ok (b, w') ∧
                    batch_ready rows n_labels pad b ∧ calm w0 w') as Hfetch.
  { intros chunk w0 Hchunk. apply fetch_batch_ready; [done|].
    apply Forall_forall. intros idx Hidx.
    assert (idx ∈ idxs) as Hin.
    { rewrite <- (batched_concat idxs (dl_batch_size dl) Hsize).
      apply list_elem_of_In, in_concat. exists chunk.
      split; by apply list_elem_of_In. }
    rewrite Hp in Hin. apply elem_of_seq in Hin. unfold n in Hin. lia. }
  destruct (collectM_calm (batch_ready rows n_labels pad) _ _ Hfetch w1)
    as (batches & w2 & Hrun & Hbr & Hlen & Hcalm).
  exists batches, w2. split; [done|]. split; [done|].
  destruct Hcalm as (? & _ & ?). split; [|split; congruence].
  rewrite Hlen, length_batched by done. unfold DataLoader_len.
  apply Permutation_length in Hp. rewrite length_seq in Hp. by rewrite Hp.
Qed.

End loader_any.

Section epoch_facts.
Context {T : Type} `{Backend T}.
Import PyFacts.

(** A model whose embedding table has [rows] rows and whose output unit
    has [n_labels] outputs. *)
Definition model_shape (m : SimpleSequenceModel T) (rows n_labels : nat) : Prop :=
  length (emb_weight (word_embedding m)) = rows ∧
  length (lin_weight (top_layer m)) = n_labels ∧
  length (lin_bias (top_layer m)) = n_labels.

Lemma model_shape_step (m : SimpleSequenceModel T) rows n_labels (o : Adam) grads :
  Adam_keeps_shape → model_shape m rows n_labels →
  model_shape (set_parameters m (Adam_step o (parameters m) grads).2) rows n_labels.
Proof.
  intros Hkeep (He & Hw & Hb). specialize (Hkeep o (parameters m) grads).
  destruct (Adam_step o (parameters m) grads) as [o' [[e w] b]].
  unfold shape, parameters in Hkeep. simpl in Hkeep. injection Hkeep as ? ? ?.
  unfold model_shape. simpl. lia.
Qed.

Lemma model_shape_ready (m : SimpleSequenceModel T) rows n_labels :
  model_shape m rows n_labels → 0 < n_labels → output_ready m n_labels.
Proof. intros (_ & ? & ?) ?. by repeat split. Qed.

(** What a run does, without the numbers. *)
Inductive kind : Type :=
| StepK
| EvalK
| EpochK (epoch : nat)
| FinalK
| PlotK (n_train_loss n_val_f1 : nat).

Definition kind_of (e : event T) : kind :=
  match e with
  | OptimizerStep _ => StepK
  | EvaluateBatch _ => EvalK
  | PrintEpoch i _ _ _ => EpochK i
  | PrintFinal _ _ => FinalK
  | Plot losses f1s => PlotK (length losses) (length f1s)
  end.

(** *** The loss of a ready batch *)

Lemma loss_terms_Ok (ign : nat) (l : list (list T * nat)) : ∀ acc,
  Forall (λ xy, xy.2 = ign ∨ xy.2 < length xy.1) l →
  ∃ acc', for_each (loss_term nll ign) acc l = Ok acc'.
Proof.
  induction l as [|[row y] l IH]; intros [sum cnt] Hl; [by eexists|].
  apply Forall_cons in Hl as [Hy Hl]. rewrite for_each_cons.
  unfold loss_term at 1. simpl in Hy.
  destruct (decide (y = ign)); [apply IH; done|].
  destruct (decide (y < length row)); [apply IH; done|]. lia.
Qed.

Lemma Forall_zip_concat {A B} (P : A * B → Prop) (X : list (list A)) (Y : list (list B)) :
  same_shape X Y →
  Forall2 (λ x y, Forall P (zip x y)) X Y →
  Forall P (zip (concat X) (concat Y)).
Proof.
  intros Hsame HP. rewrite zip_concat by done.
  induction HP as [|x y X Y Hxy _ IH]; simpl; [constructor|].
  apply Forall2_cons in Hsame as [_ Hsame]. apply Forall_app_2; auto.
Qed.

Lemma batch_loss_Ok (lf : CrossEntropyLoss) rows n_labels (b : Batch)
    (m : SimpleSequenceModel T) :
  model_shape m rows n_labels → 0 < n_labels →
  batch_ready rows n_labels (ignore_index lf) b →
  ∃ loss, batch_loss lf n_labels b m = Ok loss.
Proof.
  intros Hshape Hpos (Hin & Hsame & Hlabels).
  pose proof (model_shape_ready m rows n_labels Hshape Hpos) as Hready.
  rewrite (batch_loss_scores lf n_labels b m Hready).
  2:{ unfold ids_in_range. by destruct Hshape as (-> & _). }
  unfold cross_entropy.
  set (S := (λ row : list nat, scores_of m <$> row) <$> Xbatch_words b).
  assert (same_shape S (Ybatch b)) as HS by by apply same_shape_fmap_l.
  rewrite decide_True by by apply same_shape_concat_length.
  destruct (loss_terms_Ok (ignore_index lf) (zip (concat S) (concat (Ybatch b)))
              (Tzero, 0)) as [[sum cnt] Hsum].
  - apply Forall_zip_concat; [done|].
    apply Forall2_same_length_lookup_2; [by eapply Forall2_length|].
    intros i srow yrow Hs Hy. apply Forall_forall. intros [v y] Hvy. simpl.
    assert (length v = n_labels) as ->.
    { apply elem_of_zip_l in Hvy.
      pose proof (scores_vectors m n_labels (Xbatch_words b) Hready) as Hv.
      eapply Forall_lookup_1 in Hv; [|exact Hs].
      by eapply Forall_forall in Hv. }
    apply elem_of_zip_r in Hvy.
    eapply Forall_lookup_1 in Hlabels; [|exact Hy].
    by eapply Forall_forall in Hlabels.
  - rewrite Hsum. by eexists.
Qed.

(** *** The training loop of an epoch *)

Lemma train_batch_ready (lf : CrossEntropyLoss) rows n_labels
    (m : SimpleSequenceModel T) (o : Adam) (loss_sum : T) (b : Batch) (w : World T) :
  Adam_keeps_shape → model_shape m rows n_labels → 0 < n_labels →
  batch_ready rows n_labels (ignore_index lf) b →
  ∃ m' o' loss_sum' loss w',
    train_batch lf n_labels (m, o, loss_sum) b w = Ok ((m', o', loss_sum'), w') ∧
    model_shape m' rows n_labels ∧
    trace w' = trace w ++ [OptimizerStep loss] ∧ ticks w' = ticks w.
Proof.
  intros Hkeep Hshape Hpos Hb.
  destruct (batch_loss_Ok lf rows n_labels b m Hshape Hpos Hb) as [loss Hloss].
  unfold train_batch. rewrite (lift_Ok _ _ _ _ Hloss).
  set (grads := autograd _ _).
  pose proof (model_shape_step m rows n_labels o grads Hkeep Hshape) as Hshape'.
  destruct (Adam_step o (parameters m) grads) as [o' ps].
  eexists _, _, _, loss, _. split; [done|]. by split.
Qed.

Lemma train_loop_ready (lf : CrossEntropyLoss) rows n_labels (batches : list Batch) :
  Adam_keeps_shape → 0 < n_labels →
  Forall (batch_ready rows n_labels (ignore_index lf)) batches →
  ∀ (m : SimpleSequenceModel T) (o : Adam) (loss_sum : T) (w : World T),
    model_shape m rows n_labels →
    ∃ m' o' loss_sum' w' new,
      for_eachM (train_batch lf n_labels) (m, o, loss_sum) batches w
      = Ok ((m', o', loss_sum'), w') ∧
      model_shape m' rows n_labels ∧
      trace w' = trace w ++ new ∧
      kind_of <$> new = replicate (length batches) StepK ∧
      ticks w' = ticks w.
Proof.
  intros Hkeep Hpos. induction 1 as [|b batches Hb _ IH]; intros m o loss_sum w Hshape.
  - eexists m, o, loss_sum, w, [].
    split; [done|]. split; [done|]. split; [by rewrite app_nil_r|]. by split.
  - destruct (train_batch_ready lf rows n_labels m o loss_sum b w Hkeep Hshape Hpos Hb)
      as (m1 & o1 & ls1 & loss & w1 & Hstep & Hshape1 & Htr1 & Htk1).
    destruct (IH m1 o1 ls1 w1 Hshape1)
      as (m2 & o2 & ls2 & w2 & new & Hrun & Hshape2 & Htr2 & Hkinds & Htk2).
    exists m2, o2, ls2, w2, (OptimizerStep loss :: new).
    rewrite for_eachM_cons, Hstep. split; [done|]. split; [done|].
    split; [by rewrite Htr2, Htr1, <- app_assoc|].
    split; [by rewrite fmap_cons, Hkinds|congruence].
Qed.

(** *** The validation loop of an epoch *)

Lemma decode_tags_Ok (voc : Vocabulary) (ids : list nat) :
  Forall (λ i, i < length (itos voc)) ids →
  ∃ tags, comprehension (decode_tag voc) ids = Ok tags.
Proof.
  intros Hids.
  exists ((λ i, parse_tag (default "" (itos voc !! i))) <$> ids).
  apply comprehension_total. eapply Forall_impl; [exact Hids|].
  intros i Hi. simpl in Hi. unfold decode_tag.
  destruct (lookup_lt_is_Some_2 _ _ Hi) as [s Hs].
  by rewrite (getitem_lookup _ _ _ Hs), Hs.
Qed.

Lemma evaluate_row_Ok (voc : Vocabulary) (st : Stats) (p g : list nat) :
  Forall (λ i, i < length (itos voc)) p →
  Forall (λ y, y = pad_idx voc ∨ y < length (itos voc)) g →
  ∃ st', evaluate_row voc st (p, g) = Ok st'.
Proof.
  intros Hp Hg. unfold evaluate_row, real_positions. cbn [fst snd].
  set (real := filter _ _).
  assert (Forall (λ pg : nat * nat,
                    pg.1 < length (itos voc) ∧ pg.2 < length (itos voc)) real) as Hreal.
  { apply Forall_forall. intros [i y] Hin.
    apply list_elem_of_filter in Hin as [Hy Hin]. simpl in *.
    pose proof (elem_of_zip_l _ _ _ _ Hin) as Hi.
    pose proof (elem_of_zip_r _ _ _ _ Hin) as Hy'.
    eapply Forall_forall in Hp; [|exact Hi].
    eapply Forall_forall in Hg; [|exact Hy']. simpl in Hg. split; [done|].
    by destruct Hg. }
  destruct (decode_tags_Ok voc (real.*1)) as [pt Hpt].
  { apply Forall_fmap. eapply Forall_impl; [exact Hreal|]. by intros ? [? ?]. }
  destruct (decode_tags_Ok voc (real.*2)) as [gt Hgt].
  { apply Forall_fmap. eapply Forall_impl; [exact Hreal|]. by intros ? [? ?]. }
  rewrite Hpt. cbn. rewrite Hgt. cbn. by eexists.
Qed.

Lemma evaluate_iob_Ok (voc : Vocabulary) (W : list (list nat)) (P : list (list nat)) :
  ∀ Y st,
  Forall (Forall (λ i, i < length (itos voc))) P →
  Forall (Forall (λ y, y = pad_idx voc ∨ y < length (itos voc))) Y →
  ∃ st', evaluate_iob W P Y voc st = Ok st'.
Proof.
  unfold evaluate_iob.
  induction P as [|p P IH]; intros [|g Y] st HP HY; try by eexists.
  apply Forall_cons in HP as [Hp HP]. apply Forall_cons in HY as [Hg HY].
  change (zip (p :: P) (g :: Y)) with ((p, g) :: zip P Y). rewrite for_each_cons.
  destruct (evaluate_row_Ok voc st p g Hp Hg) as [st1 ->]. simpl. by apply IH.
Qed.

Lemma validate_batch_ready (voc : Vocabulary) rows n_labels
    (m : SimpleSequenceModel T) (st : Stats) (b : Batch) (w : World T) :
  model_shape m rows n_labels → 0 < n_labels → n_labels ≤ length (itos voc) →
  batch_ready rows n_labels (pad_idx voc) b →
  ∃ st' predicted w',
    validate_batch voc (m, st) b w = Ok ((m, st'), w') ∧
    trace w' = trace w ++ [EvaluateBatch predicted] ∧ ticks w' = ticks w.
Proof.
  intros Hshape Hpos Hitos (Hin & Hsame & Hlabels).
  pose proof (model_shape_ready m rows n_labels Hshape Hpos) as Hready.
  unfold validate_batch.
  erewrite lift_Ok.
  2:{ apply forward_in_range. unfold ids_in_range. by destruct Hshape as (-> & _). }
  erewrite lift_Ok; [|by apply (argmax_dim2_scores m n_labels)].
  set (predicted := (λ row : list nat, label_id m <$> row) <$> Xbatch_words b).
  destruct (evaluate_iob_Ok voc (Xbatch_words b) predicted (Ybatch b) st)
    as [st' Hst'].
  - apply Forall_fmap, Forall_forall. intros row _.
    apply Forall_fmap, Forall_forall. intros x _. simpl.
    destruct (label_id_spec m n_labels x Hready) as [_ Hlt]. lia.
  - eapply Forall_impl; [exact Hlabels|]. intros row Hrow.
    eapply Forall_impl; [exact Hrow|]. intros y [->|Hy]; [by left|right; lia].
  - exists st', predicted. eexists.
    unfold mbind, M_bind, bindM, emit, lift. rewrite Hst'. by repeat split.
Qed.

Lemma validate_loop_ready (voc : Vocabulary) rows n_labels
    (m : SimpleSequenceModel T) (batches : list Batch) :
  model_shape m rows n_labels → 0 < n_labels → n_labels ≤ length (itos voc) →
  Forall (batch_ready rows n_labels (pad_idx voc)) batches →
  ∀ (st : Stats) (w : World T),
    ∃ st' w' new,
      for_eachM (validate_batch voc) (m, st) batches w = Ok ((m, st'), w') ∧
      trace w' = trace w ++ new ∧
      kind_of <$> new = replicate (length batches) EvalK ∧
      ticks w' = ticks w.
Proof.
  intros Hshape Hpos Hitos. induction 1 as [|b batches Hb _ IH]; intros st w.
  - eexists st, w, [].
    split; [done|]. split; [by rewrite app_nil_r|]. by split.
  - destruct (validate_batch_ready voc rows n_labels m st b w Hshape Hpos Hitos Hb)
      as (st1 & predicted & w1 & Hstep & Htr1 & Htk1).
    destruct (IH st1 w1) as (st2 & w2 & new & Hrun & Htr2 & Hkinds & Htk2).
    exists st2, w2, (EvaluateBatch predicted :: new).
    rewrite for_eachM_cons, Hstep. split; [done|].
    split; [by rewrite Htr2, Htr1, <- app_assoc|].
    split; [by rewrite fmap_cons, Hkinds|congruence].
Qed.

End epoch_facts.

Section train_facts.
Context {T : Type} `{NerUtilOps T}.
Import PyFacts.

Lemma prf_Ok (c : Counter) : ∃ r, prf c = Ok r.
Proof.
  unfold prf.
  destruct (ratio_or_zero_ok (Q_of_nat (counter_get c "tp"))
              (Q_of_nat (counter_get c "tp") + Q_of_nat (counter_get c "fp")))
    as (p & Hp & _).
  destruct (ratio_or_zero_ok (Q_of_nat (counter_get c "tp"))
              (Q_of_nat (counter_get c "tp") + Q_of_nat (counter_get c "fn")))
    as (r & Hr & _).
  destruct (ratio_or_zero_ok (2 * p * r) (p + r)) as (f1 & Hf & _).
  exists (p, r, f1). cbn. rewrite Hp. cbn. rewrite Hr. cbn. by rewrite Hf.
Qed.

Lemma model_shape_set_training (m : SimpleSequenceModel T) mode rows n_labels :
  model_shape m rows n_labels → model_shape (set_training mode m) rows n_labels.
Proof. done. Qed.

Lemma DataLoader_len_pos (dl : DataLoader T) :
  0 < dl_batch_size dl → 0 < length (ds_words (dl_dataset dl)) → 0 < DataLoader_len dl.
Proof.
  intros Hsize Hn. unfold DataLoader_len.
  apply Nat.div_str_pos. lia.
Qed.

(** The events of one epoch, and of a whole run, without the numbers:
    [steps] optimizer updates, then [evals] evaluated batches, then the
    line printed for the epoch; after the last epoch the final report and
    the plot of the two histories. *)
Definition epoch_kinds (steps evals i : nat) : list kind :=
  replicate steps StepK ++ replicate evals EvalK ++ [EpochK (i + 1)].

Definition run_kinds (steps evals n : nat) : list kind :=
  concat (epoch_kinds steps evals <$> seq 0 n) ++ [FinalK; PlotK n n].

Section epochs.
Variables (loss_func : CrossEntropyLoss) (voc : Vocabulary)
          (train_loader val_loader : DataLoader T) (rows : nat).
Hypothesis Hperm : randperm_permutes.
Hypothesis Hkeep : Adam_keeps_shape.
Hypothesis Hpos : 0 < voc_len voc.
Hypothesis Hitos : voc_len voc ≤ length (itos voc).
Hypothesis Hign : ignore_index loss_func = pad_idx voc.
Hypothesis Htrain : loader_ready rows (voc_len voc) (pad_idx voc) train_loader.
Hypothesis Hval : loader_ready rows (voc_len voc) (pad_idx voc) val_loader.
Hypothesis Hsome : 0 < length (ds_words (dl_dataset train_loader)).

Lemma epoch_ready (st : TrainState T) (i : nat) (w : World T) :
  model_shape (ts_model st) rows (voc_len voc) →
  ∃ st' w' new,
    epoch loss_func voc train_loader val_loader st i w = Ok (st', w') ∧
    model_shape (ts_model st') rows (voc_len voc) ∧
    is_Some (ts_stats st') ∧
    length (ts_train_loss st') = S (length (ts_train_loss st)) ∧
    length (ts_val_f1 st') = S (length (ts_val_f1 st)) ∧
    trace w' = trace w ++ new ∧
    kind_of <$> new
    = epoch_kinds (DataLoader_len train_loader) (DataLoader_len val_loader) i.
Proof.
  intros Hshape. unfold epoch.
  erewrite bindM_Ok; [|reflexivity].
  set (w0 := {| torch_rng := torch_rng w; py_rng := py_rng w;
                ticks := tl (ticks w); trace := trace w |}).
  destruct (DataLoader_iter_ready rows (voc_len voc) (pad_idx voc) train_loader w0
              Hperm Htrain) as (batches & w1 & Hiter & Hbr & Hlen & Htr1 & _).
  rewrite (bindM_Ok _ _ _ _ _ Hiter).
  rewrite <- Hign in Hbr.
  destruct (train_loop_ready loss_func rows (voc_len voc) batches Hkeep Hpos Hbr
              (set_training true (ts_model st)) (ts_optimizer st) Tzero w1
              (model_shape_set_training _ true _ _ Hshape))
    as (m1 & o1 & ls1 & w2 & steps & Hloop & Hshape1 & Htr2 & Hsteps & _).
  rewrite (bindM_Ok _ _ _ _ _ Hloop). cbv beta iota.
  assert (truediv_len ls1 (DataLoader_len train_loader)
          = Ok (Tdiv_nat ls1 (DataLoader_len train_loader))) as Hdiv.
  { unfold truediv_len. destruct Htrain as (Hsize & _).
    pose proof (DataLoader_len_pos train_loader Hsize Hsome).
    rewrite decide_False; [done|lia]. }
  rewrite (lift_Ok _ _ _ _ Hdiv).
  unfold validate.
  destruct (DataLoader_iter_ready rows (voc_len voc) (pad_idx voc) val_loader w2
              Hperm Hval) as (vbatches & w3 & Hviter & Hvbr & Hvlen & Htr3 & _).
  destruct (validate_loop_ready voc rows (voc_len voc) (set_training false m1)
              vbatches (model_shape_set_training _ false _ _ Hshape1) Hpos Hitos Hvbr
              ∅ w3) as (stats1 & w4 & evals & Hvloop & Htr4 & Hevals & _).
  erewrite bindM_Ok.
  2:{ rewrite (bindM_Ok _ _ _ _ _ Hviter). exact Hvloop. }
  cbv beta iota.
  destruct (prf_Ok (stats_get stats1 "total")) as [[[pr rc] f1] Hprf].
  rewrite (lift_Ok _ _ _ _ Hprf). cbv beta iota.
  erewrite bindM_Ok; [|reflexivity].
  erewrite bindM_Ok; [|reflexivity].
  eexists _, _, (steps ++ evals ++ [_]). split; [reflexivity|].
  cbn [ts_model ts_stats ts_train_loss ts_val_f1 trace].
  split; [done|]. split; [by eexists|].
  split; [rewrite length_app; simpl; lia|].
  split; [rewrite length_app; simpl; lia|].
  split.
  - rewrite Htr4, Htr3, Htr2, Htr1. subst w0. simpl. by rewrite <- !app_assoc.
  - rewrite !fmap_app, Hsteps, Hevals, Hlen, Hvlen. done.
Qed.

Lemma epochs_ready_loop (n : nat) : ∀ (i : nat) (st : TrainState T) (w : World T),
  model_shape (ts_model st) rows (voc_len voc) →
  ∃ st' w' new,
    for_eachM (epoch loss_func voc train_loader val_loader) st (seq i n) w
    = Ok (st', w') ∧
    model_shape (ts_model st') rows (voc_len voc) ∧
    (0 < n → is_Some (ts_stats st')) ∧
    length (ts_train_loss st') = length (ts_train_loss st) + n ∧
    length (ts_val_f1 st') = length (ts_val_f1 st) + n ∧
    trace w' = trace w ++ new ∧
    kind_of <$> new
    = concat (epoch_kinds (DataLoader_len train_loader) (DataLoader_len val_loader)
                <$> seq i n).
Proof.
  induction n as [|n IH]; intros i st w Hshape.
  - exists st, w, []. split; [done|]. split; [done|]. split; [lia|].
    split; [simpl; lia|]. split; [simpl; lia|]. split; [by rewrite app_nil_r|done].
  - destruct (epoch_ready st i w Hshape)
      as (st1 & w1 & new1 & Hep & Hshape1 & Hstats1 & Hl1 & Hf1 & Htr1 & Hk1).
    destruct (IH (S i) st1 w1 Hshape1)
      as (st2 & w2 & new2 & Hrun & Hshape2 & Hstats2 & Hl2 & Hf2 & Htr2 & Hk2).
    exists st2, w2, (new1 ++ new2).
    rewrite <- cons_seq, for_eachM_cons, Hep. split; [done|]. split; [done|].
    split.
    { intros _. destruct n; [|apply Hstats2; lia].
      simpl in Hrun. by injection Hrun as <- _. }
    split; [lia|]. split; [lia|].
    split; [by rewrite Htr2, Htr1, <- app_assoc|].
    by rewrite fmap_app, Hk1, Hk2, fmap_cons.
Qed.

End epochs.

Lemma final_report_Ok (st : TrainState T) (stats0 : Stats) (w : World T) :
  ts_stats st = Some stats0 →
  ∃ stats1 w' overall per_type,
    final_report st w = Ok (stats1, w') ∧
    trace w' = trace w ++ [PrintFinal overall per_type;
                           Plot (ts_train_loss st) (ts_val_f1 st)].
Proof.
  intros Hst. unfold final_report. rewrite Hst.
  rewrite (lift_Ok _ _ _ _ eq_refl).
  destruct (prf_Ok (stats_get stats0 "total")) as [overall Hprf].
  rewrite (lift_Ok _ _ _ _ Hprf).
  erewrite lift_Ok.
  2:{ apply (comprehension_total _
               (λ lc : string * Counter,
                  (lc.1, match prf lc.2 with Ok r => r | Raise _ => (0, 0, 0)%Q end))).
      apply Forall_forall. intros lc _.
      destruct (prf_Ok lc.2) as [r ->]. done. }
  eexists _, _, overall, _. split; [reflexivity|]. simpl.
  by rewrite <- app_assoc.
Qed.

(** What [train] needs of what it has set up: at least one label class,
    each with a label string; a model with one output per class; a loss
    that ignores the label vocabulary's pad id; loaders whose datasets hold
    as many labels as words, word ids with a row in the embedding table and
    label ids that are classes, and whose batcher pads with a word id that
    has a row and with the label pad id; and a training set that is not
    empty. *)
Definition epochs_ready (su : Setup T) : Prop :=
  0 < voc_len (su_label_voc su) ∧
  voc_len (su_label_voc su) ≤ length (itos (su_label_voc su)) ∧
  model_shape (su_model su)
    (length (emb_weight (word_embedding (su_model su)))) (voc_len (su_label_voc su)) ∧
  ignore_index (su_loss_func su) = pad_idx (su_label_voc su) ∧
  loader_ready (length (emb_weight (word_embedding (su_model su))))
    (voc_len (su_label_voc su)) (pad_idx (su_label_voc su)) (su_train_loader su) ∧
  loader_ready (length (emb_weight (word_embedding (su_model su))))
    (voc_len (su_label_voc su)) (pad_idx (su_label_voc su)) (su_val_loader su) ∧
  0 < length (ds_words (dl_dataset (su_train_loader su))).

(** The loaders [train] sets up: the training loader shuffles, the
    validation loader does not. *)
Lemma train_setup_loaders (p : SeqLabelerParameters T) (w w1 : World T) (su : Setup T) :
  train_setup p w = Ok (su, w1) →
  dl_shuffle (su_train_loader su) = true ∧
  dl_shuffle (su_val_loader su) = false ∧
  trace w1 = trace w.
Proof.
  unfold train_setup. unfold mbind, M_bind, bindM, lift, torch_manual_seed,
    random_seed_call, with_torch_rng, DataLoader_new, ret.
  destruct (read_data (train_file p)) as [[Xtrain Ytrain]|]; [|done].
  destruct (read_data (valid_file p)) as [[Xval Yval]|]; [|done].
  destruct (encode _ Xtrain); [|done].
  destruct (encode _ Ytrain); [|done].
  destruct (if use_characters p then _ else _); [|done].
  destruct (decide (batch_size p = 0)); [done|].
  destruct (encode _ Xval); [|done].
  destruct (encode _ Yval); [|done].
  destruct (if use_characters p then _ else _); [|done].
  simpl.
  destruct (make_embedding_layer _ _ _ _) as [emb g1].
  destruct (SimpleSequenceModel_init _ _ _) as [m g2].
  by intros [= <- <-].
Qed.

End train_facts.

(** C8: when the setup of [train] succeeds and is sound (see
    [epochs_ready]), [train] completes, and it runs exactly [n_epochs]
    epochs: each is one optimizer update per batch of the training loader,
    which shuffles, then one evaluated batch per batch of the validation
    loader, which does not shuffle and updates nothing, then the printed
    training loss and validation F1 of the epoch; the final report and the
    plot of [n_epochs] losses and F1 scores follow the last epoch. *)
Theorem train_runs_its_epochs {T : Type} `{NerUtilOps T}
    (p : SeqLabelerParameters T) (w w1 : World T) (su : Setup T) :
  randperm_permutes → Adam_keeps_shape →
  train_setup p w = Ok (su, w1) →
  epochs_ready su →
  0 < n_epochs p →
  dl_shuffle (su_train_loader su) = true ∧
  dl_shuffle (su_val_loader su) = false ∧
  ∃ self w' new,
    train p w = Ok (self, w') ∧
    trace w' = trace w ++ new ∧
    kind_of <$> new
    = run_kinds (DataLoader_len (su_train_loader su))
                (DataLoader_len (su_val_loader su)) (n_epochs p).
Proof.
  intros Hperm Hkeep Hsetup (Hpos & Hitos & Hshape & Hign & Htl & Hvl & Hsome) Hn.
  destruct (train_setup_loaders p w w1 su Hsetup) as (Hsh1 & Hsh2 & Htr0).
  split; [done|]. split; [done|].
  unfold train. rewrite (bindM_Ok _ _ _ _ _ Hsetup). unfold train_epochs.
  destruct (epochs_ready_loop (su_loss_func su) (su_label_voc su)
              (su_train_loader su) (su_val_loader su) _
              Hperm Hkeep Hpos Hitos Hign Htl Hvl Hsome (n_epochs p) 0
              {| ts_model := su_model su; ts_optimizer := su_optimizer su;
                 ts_train_loss := []; ts_val_f1 := []; ts_stats := None |} w1 Hshape)
    as (st & w2 & new & Hrun & _ & Hstats & Hl & Hf & Htr2 & Hkinds).
  rewrite (bindM_Ok _ _ _ _ _ Hrun).
  destruct (Hstats Hn) as [stats0 Hstats0].
  destruct (final_report_Ok st stats0 w2 Hstats0)
    as (stats1 & w3 & overall & per_type & Hfinal & Htr3).
  rewrite (bindM_Ok _ _ _ _ _ Hfinal).
  eexists _, _, (new ++ [PrintFinal overall per_type;
                         Plot (ts_train_loss st) (ts_val_f1 st)]).
  split; [reflexivity|]. split.
  - by rewrite Htr3, Htr2, Htr0, <- app_assoc.
  - rewrite fmap_app, Hkinds. unfold run_kinds. simpl. by rewrite Hl, Hf.
Qed.

Lemma demo_randperm_permutes : randperm_permutes (T := Z).
Proof. intros n g. simpl. apply reverse_Permutation. Defined.

Lemma demo_Adam_keeps_shape : Adam_keeps_shape (T := Z).
Proof.
  intros o [[e wt] b] grads. unfold shape. simpl.
  by rewrite !length_fmap.
Defined.

Lemma demo_epochs_ready : epochs_ready Demo.setup.1.
Proof.
  unfold epochs_ready, model_shape, loader_ready, dataset_ready, same_shape.
  split. { vm_compute. lia. }
  split. { vm_compute. lia. }
  split. { vm_compute. repeat split. }
  split. { vm_compute. reflexivity. }
  split.
  { split. { vm_compute. lia. }
    split.
    - split. { vm_compute. repeat constructor. }
      split. { vm_compute. exact I. }
      split. { vm_compute. repeat constructor. }
      split. { intros u Hu. vm_compute in Hu. injection Hu as <-. vm_compute. lia. }
      vm_compute. repeat constructor.
    - split; [vm_compute; lia|vm_compute; reflexivity]. }
  split.
  { split. { vm_compute. lia. }
    split.
    - split. { vm_compute. repeat constructor. }
      split. { vm_compute. exact I. }
      split. { vm_compute. repeat constructor. }
      split. { intros u Hu. vm_compute in Hu. discriminate. }
      vm_compute. repeat constructor.
    - split; [vm_compute; lia|vm_compute; reflexivity]. }
  vm_compute. lia.
Defined.

Lemma train_runs_its_epochs_witness :
  dl_shuffle (su_train_loader Demo.setup.1) = true ∧
  dl_shuffle (su_val_loader Demo.setup.1) = false ∧
  ∃ self w' new,
    train Demo.demo_params Demo.world0 = Ok (self, w') ∧
    trace w' = trace Demo.world0 ++ new ∧
    kind_of <$> new
    = run_kinds (DataLoader_len (su_train_loader Demo.setup.1))
                (DataLoader_len (su_val_loader Demo.setup.1))
                (n_epochs Demo.demo_params).
Proof.
  apply (train_runs_its_epochs Demo.demo_params Demo.world0 Demo.setup.2 Demo.setup.1).
  - exact demo_randperm_permutes.
  - exact demo_Adam_keeps_shape.
  - vm_compute. reflexivity.
  - exact demo_epochs_ready.
  - vm_compute. lia.
Defined.

(** ** Reproducibility of [train] *)

Section reproducible.
Context {T : Type} `{NerUtilOps T}.
Import PyFacts.

(** An event without the time it took, and what a run leaves behind: the
    trained labeler and the events without their times. *)
Definition untimed (e : event T) : event T :=
  match e with
  | PrintEpoch i train_loss val_f1 _ => PrintEpoch i train_loss val_f1 Tzero
  | _ => e
  end.

Definition outcome (r : result (SequenceLabeler T * World T))
  : result (SequenceLabeler T * list (event T)) :=
  match r with
  | Ok (self, w) => Ok (self, untimed <$> trace w)
  | Raise e => Raise e
  end.

(** Two worlds with the same generators and, times aside, the same trace;
    two computations that, from such worlds, end alike in such worlds. *)
Definition alike (w1 w2 : World T) : Prop :=
  torch_rng w1 = torch_rng w2 ∧ py_rng w1 = py_rng w2 ∧
  untimed <$> trace w1 = untimed <$> trace w2.

Definition ends_alike {A : Type} (r1 r2 : result (A * World T)) : Prop :=
  match r1, r2 with
  | Ok (a1, w1), Ok (a2, w2) => a1 = a2 ∧ alike w1 w2
  | Raise e1, Raise e2 => e1 = e2
  | _, _ => False
  end.

Definition agree {A : Type} (m1 m2 : M T A) : Prop :=
  ∀ w1 w2, alike w1 w2 → ends_alike (m1 w1) (m2 w2).

Lemma agree_ret {A} (a : A) : agree (ret a) (ret a).
Proof. by intros w1 w2 Hw. Qed.

Lemma agree_lift {A} (r : result A) : agree (lift r) (lift r).
Proof. intros w1 w2 Hw. unfold lift. by destruct r. Qed.

Lemma agree_bind {A B} (m1 m2 : M T A) (k1 k2 : A → M T B) :
  agree m1 m2 → (∀ a, agree (k1 a) (k2 a)) → agree (m1 ≫= k1) (m2 ≫= k2).
Proof.
  intros Hm Hk w1 w2 Hw. unfold mbind, M_bind, bindM.
  specialize (Hm w1 w2 Hw). unfold ends_alike in Hm.
  destruct (m1 w1) as [[a1 w1']|e1], (m2 w2) as [[a2 w2']|e2]; try done.
  destruct Hm as [<- Hw']. by apply Hk.
Qed.

Lemma agree_emit (e1 e2 : event T) :
  untimed e1 = untimed e2 → agree (emit e1) (emit e2).
Proof.
  intros He w1 w2 (Hg & Hp & Ht). unfold emit. simpl. split; [done|].
  repeat split; simpl; try done. by rewrite !fmap_app, Ht, !fmap_cons, He.
Qed.

Lemma agree_time {B} (k1 k2 : T → M T B) :
  (∀ t1 t2, agree (k1 t1) (k2 t2)) → agree (time_time ≫= k1) (time_time ≫= k2).
Proof.
  intros Hk w1 w2 (Hg & Hp & Ht). unfold mbind, M_bind, bindM, time_time.
  apply Hk. by repeat split.
Qed.

Lemma agree_torch {A} (f : Rng → A * Rng) : agree (with_torch_rng f) (with_torch_rng f).
Proof.
  intros w1 w2 (Hg & Hp & Ht). unfold with_torch_rng. rewrite Hg.
  destruct (f (torch_rng w2)) as [a g]. by repeat split.
Qed.

Lemma agree_py {A} (f : PyRng → result (A * PyRng)) : agree (with_py_rng f) (with_py_rng f).
Proof.
  intros w1 w2 (Hg & Hp & Ht). unfold with_py_rng. rewrite Hp.
  destruct (f (py_rng w2)) as [[a g]|e]; [|done]. by repeat split.
Qed.

Lemma agree_collectM {A B} (f : A → M T B) l :
  (∀ a, agree (f a) (f a)) → agree (collectM f l) (collectM f l).
Proof.
  intros Hf. induction l as [|a l IH]; [apply agree_ret|].
  apply (agree_bind (f a) (f a)); [apply Hf|]. intros b.
  apply (agree_bind (collectM f l) (collectM f l)); [apply IH|]. intros bs.
  apply agree_ret.
Qed.

Lemma agree_for_eachM {A S} (body1 body2 : S → A → M T S) l :
  (∀ s a, agree (body1 s a) (body2 s a)) →
  ∀ s, agree (for_eachM body1 s l) (for_eachM body2 s l).
Proof.
  intros Hb. induction l as [|a l IH]; intros s; [apply agree_ret|].
  apply (agree_bind (body1 s a) (body2 s a)); [apply Hb|]. apply IH.
Qed.

Lemma agree_DataLoader_iter (dl : DataLoader T) :
  agree (DataLoader_iter dl) (DataLoader_iter dl).
Proof.
  unfold DataLoader_iter. apply agree_bind.
  - destruct (dl_shuffle dl); [apply agree_torch|apply agree_ret].
  - intros idxs. apply agree_collectM. intros chunk. unfold fetch_batch.
    apply agree_bind; [|intros; apply agree_ret].
    apply agree_collectM. intros idx. apply agree_py.
Qed.

Lemma agree_train_batch lf n (st : SimpleSequenceModel T * Adam * T) (b : Batch) :
  agree (train_batch lf n st b) (train_batch lf n st b).
Proof.
  destruct st as [[m o] loss_sum]. unfold train_batch.
  apply agree_bind; [apply agree_lift|]. intros loss.
  destruct (Adam_step _ _ _) as [o' ps].
  apply agree_bind; [by apply agree_emit|]. intros _. apply agree_ret.
Qed.

Lemma agree_validate voc (vl : DataLoader T) (m : SimpleSequenceModel T) :
  agree (validate voc vl m) (validate voc vl m).
Proof.
  unfold validate. apply agree_bind; [apply agree_DataLoader_iter|]. intros batches.
  apply agree_for_eachM. intros [m' st] b. unfold validate_batch.
  apply agree_bind; [apply agree_lift|]. intros scores.
  apply agree_bind; [apply agree_lift|]. intros predicted.
  apply agree_bind; [by apply agree_emit|]. intros _.
  apply agree_bind; [apply agree_lift|]. intros st'. apply agree_ret.
Qed.

Lemma agree_epoch lf voc (tl vl : DataLoader T) (st : TrainState T) (i : nat) :
  agree (epoch lf voc tl vl st i) (epoch lf voc tl vl st i).
Proof.
  unfold epoch. apply agree_time. intros t0 t0'.
  apply agree_bind; [apply agree_DataLoader_iter|]. intros batches.
  apply agree_bind; [apply agree_for_eachM; intros; apply agree_train_batch|].
  intros [[m o] loss_sum].
  apply agree_bind; [apply agree_lift|]. intros train_loss.
  apply agree_bind; [apply agree_validate|]. intros [m' stats'].
  apply agree_bind; [apply agree_lift|]. intros [[pr rc] f1].
  apply agree_time. intros t1 t1'.
  apply agree_bind; [by apply agree_emit|]. intros _. apply agree_ret.
Qed.

Lemma agree_final_report (st : TrainState T) :
  agree (final_report st) (final_report st).
Proof.
  unfold final_report.
  apply agree_bind; [apply agree_lift|]. intros stats0.
  apply agree_bind; [apply agree_lift|]. intros overall.
  apply agree_bind; [apply agree_lift|]. intros per_type.
  apply agree_bind; [by apply agree_emit|]. intros _.
  apply agree_bind; [by apply agree_emit|]. intros _. apply agree_ret.
Qed.

Lemma agree_apply {A} (k : M T A) (w1 w2 : World T) :
  agree k k → alike w1 w2 → ends_alike (k w1) (k w2).
Proof. intros Hk Hw. by apply Hk. Qed.

(** Seeding makes the generators the same whatever they were. *)
Lemma seeds_then {A} (seed : Z) (k : M T A) (w1 w2 : World T) :
  agree k k →
  untimed <$> trace w1 = untimed <$> trace w2 →
  ends_alike
    ((torch_manual_seed seed ≫= λ _, random_seed_call seed ≫= λ _, k) w1)
    ((torch_manual_seed seed ≫= λ _, random_seed_call seed ≫= λ _, k) w2).
Proof. intros Hk Ht. apply Hk. by repeat split. Qed.

Lemma train_setup_seeds (p : SeqLabelerParameters T) (w1 w2 : World T) :
  untimed <$> trace w1 = untimed <$> trace w2 →
  ends_alike (train_setup p w1) (train_setup p w2).
Proof.
  intros Ht. unfold train_setup. apply seeds_then; [|done].
  apply agree_bind; [apply agree_lift|]. intros [Xtrain Ytrain].
  apply agree_bind; [apply agree_lift|]. intros [Xval Yval].
  apply agree_bind; [apply agree_lift|]. intros Xtrain_ids.
  apply agree_bind; [apply agree_lift|]. intros Ytrain_ids.
  apply agree_bind; [apply agree_lift|]. intros Ctrain_ids.
  apply agree_bind; [apply agree_lift|]. intros train_loader.
  apply agree_bind; [apply agree_lift|]. intros Xval_ids.
  apply agree_bind; [apply agree_lift|]. intros Yval_ids.
  apply agree_bind; [apply agree_lift|]. intros Cval_ids.
  apply agree_bind; [apply agree_lift|]. intros val_loader.
  apply agree_bind; [apply agree_torch|]. intros emb_layer.
  apply agree_bind; [apply agree_torch|]. intros m.
  apply agree_ret.
Qed.

Lemma ends_alike_bind {A B} (m : M T A) (k : A → M T B) (w1 w2 : World T) :
  ends_alike (m w1) (m w2) → (∀ a, agree (k a) (k a)) →
  ends_alike ((m ≫= k) w1) ((m ≫= k) w2).
Proof.
  intros Hm Hk. unfold mbind, M_bind, bindM. unfold ends_alike in Hm.
  destruct (m w1) as [[a1 w1']|e1], (m w2) as [[a2 w2']|e2]; try done.
  destruct Hm as [<- Hw]. by apply Hk.
Qed.

Lemma train_ends_alike (p : SeqLabelerParameters T) (w1 w2 : World T) :
  untimed <$> trace w1 = untimed <$> trace w2 →
  ends_alike (train p w1) (train p w2).
Proof.
  intros Ht. unfold train.
  apply ends_alike_bind; [by apply train_setup_seeds|]. intros su.
  apply agree_bind.
  - unfold train_epochs. apply agree_for_eachM. intros st i. apply agree_epoch.
  - intros st. apply agree_bind; [apply agree_final_report|]. intros stats0.
    apply agree_ret.
Qed.

End reproducible.

(** C7: with the configuration (and so the seed) and the input files
    fixed, two runs of [train] give the same result whatever the random
    generators and the clock were before: the same trained labeler (its
    parameters, vocabularies and statistics) and, times aside, the same
    trace of optimizer updates with their losses, evaluated batches, printed
    per-epoch losses and F1 scores, final report and plot. *)
Theorem train_reproducible {T : Type} `{NerUtilOps T}
    (p : SeqLabelerParameters T) (w : World T) (g : Rng) (pg : PyRng) (clock : list T) :
  outcome (train p w)
  = outcome (train p {| torch_rng := g; py_rng := pg; ticks := clock;
                        trace := trace w |}).
Proof.
  pose proof (train_ends_alike p w
                {| torch_rng := g; py_rng := pg; ticks := clock; trace := trace w |}
                eq_refl) as Hends.
  unfold ends_alike in Hends. unfold outcome.
  destruct (train p w) as [[self1 w1]|e1],
           (train p {| torch_rng := g; py_rng := pg; ticks := clock; trace := trace w |})
    as [[self2 w2]|e2]; try done.
  - destruct Hends as (-> & _ & _ & ->). done.
  - by subst.
Qed.
